(** * Service-provider lifecycle engine (package [provider])

    A shallow embedding of [provider/provider.go] and [provider/types.go]:
    the global registry, the per-loader enable/configuration store, priority
    resolution with its in-place insertion sort, and the two-phase
    [LoadProviders] driver, followed by the properties proved about them. *)

From Stdlib Require Import ZArith Ascii.
From stdpp Require Import base option list gmap strings sorting.

Open Scope Z_scope.

(** ** Go values *)

Module Go.

(** A dynamically typed value stored behind [interface{}].  The type
    assertion [v.(int)] succeeds on [VInt] only: every other dynamic type,
    the nil interface included, makes it report [ok = false]. *)
Inductive value :=
| VNil
| VBool (b : bool)
| VInt (n : Z)
| VInt64 (n : Z)
| VFloat64 (bits : Z)
| VString (s : string).

(** [v.(int)] with the comma-ok form. *)
Definition assertInt (v : value) : option Z :=
  match v with
  | VInt n => Some n
  | _ => None
  end.

(** A value of type [map[string]interface{}]: [None] is the nil map, [Some m]
    an allocated map, possibly empty. *)
Abbreviation config := (option (gmap string value)).

(** [m[k]] on a map whose elements are interfaces: the nil interface when the
    key is missing. *)
Definition index (m : gmap string value) (k : string) : value :=
  default VNil (m !! k).

(** Errors: [errors.New] leaves and [fmt.Errorf] with a [%w] verb, which
    keeps the wrapped error next to the formatted message. *)
Inductive error :=
| New (msg : string)
| Errorf (msg : string) (wrapped : error).

Definition Error (e : error) : string :=
  match e with
  | New msg => msg
  | Errorf msg _ => msg
  end.

Definition Unwrap (e : error) : option error :=
  match e with
  | New _ => None
  | Errorf _ w => Some w
  end.

(** A panic, carrying its message. *)
Inductive panic := Panic (msg : string).

(** [a[i] = x] on a slice: a run-time panic when [i] is out of range. *)
Definition store {A} (a : list A) (i : nat) (x : A) : option (list A) :=
  if decide (i < length a)%nat then Some (<[i:=x]> a) else None.

End Go.

Import Go.

(** ** The provider package *)

Section provider.

(** Everything the provider callbacks can reach and change: the host
    application behind [app] and the providers' own private fields.  The
    registry and the loader's two maps are kept apart from it (see
    [Machine]): the callbacks are given [app] and a configuration map, never
    the loader. *)
Context {World : Type}.

(** The host application, the opaque [app interface{}] that [LoadProviders]
    hands to [Register] and [Boot]. *)
Context {App : Type}.

(** The outcome of a callback: the world it leaves and the error it
    returns ([None] is the nil error). *)
Abbreviation callback := (World → World * option error).

(** [types.go]: a provider as its capability set.  [Name], [Register] and
    [Boot] are the [ServiceProvider] interface; the three optional fields
    say whether the dynamic type also implements [ConfigurableProvider],
    [PriorityProvider] and [OptionalProvider], which the loader finds out
    by type assertion.  [Name], [Priority] and [IsOptional] are getters and
    are taken as constants of the provider.  A priority is a Go [int]; the
    loader only compares priorities, so [Z] stands for it. *)
Record ServiceProvider := {
  Name : string;
  Register : App → callback;
  Boot : App → callback;
  Configure : option (config → callback);
  Priority : option Z;
  IsOptional : option bool;
}.

(** [types.go]: the loader.  Its maps are only read by the code below, and a
    nil map reads like an empty one. *)
Record Provider := {
  EnabledProviders : gmap string bool;
  ProviderConfigs : gmap string config;
}.

(** [IsProviderEnabled]: the stored flag, [true] when none is stored. *)
Definition IsProviderEnabled (p : Provider) (name : string) : bool :=
  match EnabledProviders p !! name with
  | None => true
  | Some enabled => enabled
  end.

(** [GetProviderConfig]: [p.ProviderConfigs[name]], the nil map when the
    name has no entry. *)
Definition GetProviderConfig (p : Provider) (name : string) : config :=
  default None (ProviderConfigs p !! name).

(** [SetProviderEnabled] and [SetProviderConfig], on maps that were made
    (the host builds the loader with [make]); the line the second one prints
    is left out. *)
Definition SetProviderEnabled (p : Provider) (name : string) (enabled : bool)
  : Provider :=
  {| EnabledProviders := <[name := enabled]> (EnabledProviders p);
     ProviderConfigs := ProviderConfigs p |}.

Definition SetProviderConfig (p : Provider) (name : string) (cfg : config)
  : Provider :=
  {| EnabledProviders := EnabledProviders p;
     ProviderConfigs := <[name := cfg]> (ProviderConfigs p) |}.

(** *** Priority resolution and sorting *)

(** The local struct of [sortProvidersByPriority]. *)
Record providerWithPriority := {
  provider : ServiceProvider;
  priority : Z;
}.

(** The body of the first loop of [sortProvidersByPriority]
    (provider.go, lines 110-123): the priority given to one provider. *)
Definition resolvePriority (p : Provider) (prov : ServiceProvider) : Z :=
  let priority := 100 in
  match GetProviderConfig p (Name prov) with
  | Some config =>
      match assertInt (index config "priority") with
      | Some customPriority => customPriority
      | None =>
          match Priority prov with
          | Some pp => pp
          | None => priority
          end
      end
  | None =>
      match Priority prov with
      | Some pp => pp
      | None => priority
      end
  end.

(** The first loop: [withPriority[i] = providerWithPriority{prov, priority}]
    for every index of [providers]. *)
Definition assignPriorities (p : Provider) (providers : list ServiceProvider)
  : list providerWithPriority :=
  (λ prov, {| provider := prov; priority := resolvePriority p prov |})
    <$> providers.

(** The inner loop of the insertion sort,
    [for j >= 0 && withPriority[j].priority > key.priority].  The counter is
    kept as [j1 = j + 1], so that the exit value [j = -1] is [0].  Returns the
    slice and the final [j + 1]; [None] is an index out of range. *)
Fixpoint shiftRight (key : providerWithPriority) (j1 : nat)
    (withPriority : list providerWithPriority)
  : option (list providerWithPriority * nat) :=
  match j1 with
  | O => Some (withPriority, O)
  | S j =>
      wj ← withPriority !! j;
      if bool_decide (priority wj > priority key) then
        withPriority' ← store withPriority (S j) wj;
        shiftRight key j withPriority'
      else Some (withPriority, S j)
  end.

(** One round of the outer loop, for index [i]. *)
Definition insertKey (withPriority : list providerWithPriority) (i : nat)
  : option (list providerWithPriority) :=
  key ← withPriority !! i;
  '(withPriority', j1) ← shiftRight key i withPriority;
  store withPriority' j1 key.

(** [for i := 1; i < len(withPriority); i++], with [n] rounds left. *)
Fixpoint insertFrom (i n : nat) (withPriority : list providerWithPriority)
  : option (list providerWithPriority) :=
  match n with
  | O => Some withPriority
  | S n' =>
      withPriority' ← insertKey withPriority i;
      insertFrom (S i) n' withPriority'
  end.

Definition insertionSort (withPriority : list providerWithPriority)
  : option (list providerWithPriority) :=
  insertFrom 1 (length withPriority - 1) withPriority.

(** [sortProvidersByPriority]: pair every provider with its priority, sort
    the pairs in place, copy the providers out.  [None] is a run-time panic
    of one of the slice accesses. *)
Definition sortProvidersByPriority (p : Provider)
    (providers : list ServiceProvider) : option (list ServiceProvider) :=
  match insertionSort (assignPriorities p providers) with
  | Some withPriority => Some (provider <$> withPriority)
  | None => None
  end.

(** *** The machine state *)

(** A call of the loader into a provider, with its receiver and argument. *)
Inductive Call :=
| CallConfigure (prov : ServiceProvider) (cfg : config)
| CallRegister (prov : ServiceProvider) (app : App)
| CallBoot (prov : ServiceProvider) (app : App).

(** A call together with the error it returned. *)
Record Event := {
  call : Call;
  returned : option error;
}.

(** The package-level [globalProviders], the loader [p] a method is called
    on, the world of the callbacks, and the log of the calls made so far
    (a ghost field: the code keeps no such log). *)
Record Machine := {
  globalProviders : list ServiceProvider;
  loader : Provider;
  world : World;
  calls : list Event;
}.

(** What a Go function leaves behind: a normal return or a panic. *)
Inductive outcome (A : Type) :=
| Returned (a : A)
| Panicked (pn : panic).
Global Arguments Returned {A} a.
Global Arguments Panicked {A} pn.

(** Run a provider callback: it acts on the world only, and the call is
    logged with the error it returned. *)
Definition invoke (c : Call) (f : callback) (m : Machine)
  : Machine * option error :=
  let '(w, err) := f (world m) in
  ({| globalProviders := globalProviders m;
      loader := loader m;
      world := w;
      calls := calls m ++ [{| call := c; returned := err |}] |}, err).

(** *** The registry *)

(** The loop of [RegisterGlobalProvider]: panics at the first registered
    provider that has the new provider's name. *)
Fixpoint duplicateCheck (provider : ServiceProvider)
    (providers : list ServiceProvider) : option panic :=
  match providers with
  | [] => None
  | p :: rest =>
      if decide (Name p = Name provider) then
        Some (Panic ("provider with name '" +:+ Name provider
                       +:+ "' already registered"))
      else duplicateCheck provider rest
  end.

Definition RegisterGlobalProvider (provider : ServiceProvider) (m : Machine)
  : Machine * outcome unit :=
  match duplicateCheck provider (globalProviders m) with
  | Some pn => (m, Panicked pn)
  | None =>
      ({| globalProviders := globalProviders m ++ [provider];
          loader := loader m;
          world := world m;
          calls := calls m |}, Returned ())
  end.

(** [GetRegisteredProviders]: a fresh slice with the registry's entries. *)
Definition GetRegisteredProviders (m : Machine) : list ServiceProvider :=
  take (length (globalProviders m)) (globalProviders m).

(** *** Loading *)

(** [fmt.Errorf("failed to <phase> provider '%s': %w", prov.Name(), err)]. *)
Definition failedTo (phase : string) (prov : ServiceProvider) (err : error)
  : error :=
  Errorf ("failed to " +:+ phase +:+ " provider '" +:+ Name prov +:+ "': "
            +:+ Error err) err.

(** Lines 68-74: configure the provider when it implements
    [ConfigurableProvider] and its stored configuration is not the nil
    map. *)
Definition configureProvider (prov : ServiceProvider) (m : Machine)
  : Machine * option error :=
  match Configure prov with
  | Some configure =>
      match GetProviderConfig (loader m) (Name prov) with
      | Some config =>
          invoke (CallConfigure prov (Some config)) (configure (Some config)) m
      | None => (m, None)
      end
  | None => (m, None)
  end.

(** The first pass (lines 60-82).  [inl err] is the early [return] of an
    error, [inr registeredProviders] the slice built when the loop runs to
    its end.  The diagnostics printed on the way are left out. *)
Fixpoint registerPass (app : App) (sortedProviders : list ServiceProvider)
    (registeredProviders : list ServiceProvider) (m : Machine)
  : Machine * (error + list ServiceProvider) :=
  match sortedProviders with
  | [] => (m, inr registeredProviders)
  | prov :: rest =>
      if negb (IsProviderEnabled (loader m) (Name prov)) then
        registerPass app rest registeredProviders m
      else
        let '(m1, cerr) := configureProvider prov m in
        match cerr with
        | Some err => (m1, inl (failedTo "configure" prov err))
        | None =>
            let '(m2, rerr) :=
              invoke (CallRegister prov app) (Register prov app) m1 in
            match rerr with
            | Some err => (m2, inl (failedTo "register" prov err))
            | None =>
                registerPass app rest (registeredProviders ++ [prov]) m2
            end
        end
  end.

(** [optional, ok := prov.(OptionalProvider); ok && optional.IsOptional()]. *)
Definition isOptional (prov : ServiceProvider) : bool :=
  match IsOptional prov with
  | Some optional => optional
  | None => false
  end.

(** The second pass (lines 85-95); the result is what [LoadProviders]
    returns. *)
Fixpoint bootPass (app : App) (registeredProviders : list ServiceProvider)
    (m : Machine) : Machine * option error :=
  match registeredProviders with
  | [] => (m, None)
  | prov :: rest =>
      let '(m1, berr) := invoke (CallBoot prov app) (Boot prov app) m in
      match berr with
      | Some err =>
          if isOptional prov then bootPass app rest m1
          else (m1, Some (failedTo "boot" prov err))
      | None => bootPass app rest m1
      end
  end.

(** [LoadProviders]. *)
Definition LoadProviders (app : App) (m : Machine)
  : Machine * outcome (option error) :=
  let providers := take (length (globalProviders m)) (globalProviders m) in
  match sortProvidersByPriority (loader m) providers with
  | None => (m, Panicked (Panic "runtime error: index out of range"))
  | Some sortedProviders =>
      match registerPass app sortedProviders [] m with
      | (m1, inl err) => (m1, Returned (Some err))
      | (m1, inr registeredProviders) =>
          let '(m2, err) := bootPass app registeredProviders m1 in
          (m2, Returned err)
      end
  end.

End provider.

Arguments ServiceProvider : clear implicits.
Arguments providerWithPriority : clear implicits.
Arguments Call : clear implicits.
Arguments Event : clear implicits.
Arguments Machine : clear implicits.

(** ** The stored maps are shared with [Configure]

    [GetProviderConfig] returns the stored map itself, and that map, not a
    copy, is what [LoadProviders] hands to [Configure] (lines 36-38 and
    69-70): what the provider writes into its argument is written into
    [p.ProviderConfigs[name]].  The model above takes [Configure] as reading
    its argument only, as the providers of the test suite do.  This one
    follows the write: it is the same code, with the map that a [Configure]
    call leaves behind put where the loader keeps it. *)
Module Shared.

Section shared.

Context {World App : Type}.

(** [written prov config w]: what the map [config] holds after
    [prov.Configure(config)] was called in the world [w]. *)
Variable written :
  ServiceProvider World App → gmap string value → World → gmap string value.

(** Lines 68-74. *)
Definition configureProvider (prov : ServiceProvider World App)
    (m : Machine World App) : Machine World App * option error :=
  match Configure prov with
  | Some configure =>
      match GetProviderConfig (loader m) (Name prov) with
      | Some config =>
          let '(m1, err) :=
            invoke (CallConfigure prov (Some config)) (configure (Some config))
              m in
          ({| globalProviders := globalProviders m1;
              loader :=
                {| EnabledProviders := EnabledProviders (loader m1);
                   ProviderConfigs :=
                     <[Name prov := Some (written prov config (world m))]>
                       (ProviderConfigs (loader m1)) |};
              world := world m1;
              calls := calls m1 |}, err)
      | None => (m, None)
      end
  | None => (m, None)
  end.

(** The first pass (lines 60-82). *)
Fixpoint registerPass (app : App)
    (sortedProviders : list (ServiceProvider World App))
    (registeredProviders : list (ServiceProvider World App))
    (m : Machine World App)
  : Machine World App * (error + list (ServiceProvider World App)) :=
  match sortedProviders with
  | [] => (m, inr registeredProviders)
  | prov :: rest =>
      if negb (IsProviderEnabled (loader m) (Name prov)) then
        registerPass app rest registeredProviders m
      else
        let '(m1, cerr) := configureProvider prov m in
        match cerr with
        | Some err => (m1, inl (failedTo "configure" prov err))
        | None =>
            let '(m2, rerr) :=
              invoke (CallRegister prov app) (Register prov app) m1 in
            match rerr with
            | Some err => (m2, inl (failedTo "register" prov err))
            | None =>
                registerPass app rest (registeredProviders ++ [prov]) m2
            end
        end
  end.

(** [LoadProviders]; the second pass makes no [Configure] call and is the
    one above. *)
Definition LoadProviders (app : App) (m : Machine World App)
  : Machine World App * outcome (option error) :=
  let providers := take (length (globalProviders m)) (globalProviders m) in
  match sortProvidersByPriority (loader m) providers with
  | None => (m, Panicked (Panic "runtime error: index out of range"))
  | Some sortedProviders =>
      match registerPass app sortedProviders [] m with
      | (m1, inl err) => (m1, Returned (Some err))
      | (m1, inr registeredProviders) =>
          let '(m2, err) := bootPass app registeredProviders m1 in
          (m2, Returned err)
      end
  end.

End shared.


End Shared.

(** ** Specification-side definitions *)

(** What a stable sort by an integer rank is.  [ascending]: lower ranks
    first.  [sameOrderPerRank]: for every rank, the elements holding it come
    in the same relative order in both lists. *)
Section stable_spec.

Context {A : Type} (rank : A → Z).

Definition ascending (l : list A) : Prop :=
  StronglySorted (λ a b, rank a ≤ rank b) l.

Definition sameOrderPerRank (l1 l2 : list A) : Prop :=
  ∀ c : Z, filter (λ a, rank a = c) l1 = filter (λ a, rank a = c) l2.

Definition stablySorted (input output : list A) : Prop :=
  output ≡ₚ input ∧ ascending output ∧ sameOrderPerRank output input.

End stable_spec.

Section sorting_spec.

Context {World App : Type}.
Implicit Types (key : providerWithPriority World App).
Implicit Types (P : list (providerWithPriority World App)).

(** Where the inner loop stops when it scans the prefix [P] leftwards from
    index [j1 - 1]: the value of [j + 1] after the loop. *)
Fixpoint landing key P (j1 : nat) : nat :=
  match j1 with
  | O => O
  | S j =>
      match P !! j with
      | Some wj =>
          if bool_decide (priority wj > priority key) then landing key P j
          else S j
      | None => S j
      end
  end.

(** The prefix after one round: [key] put where the scan stopped. *)
Definition insertRight key P : list (providerWithPriority World App) :=
  take (landing key P (length P)) P ++ key :: drop (landing key P (length P)) P.

(** The slice after all rounds. *)
Definition insertAll P (rest : list (providerWithPriority World App))
  : list (providerWithPriority World App) :=
  foldl (λ P key, insertRight key P) P rest.

End sorting_spec.

(** Observations on the log of calls, and the shape of the log that each pass
    of [LoadProviders] leaves. *)
Section trace_spec.

Context {World App : Type}.
Implicit Types (prov : ServiceProvider World App).
Implicit Types (c : Call World App) (e : Event World App).
Implicit Types (t : list (Event World App)).

(** The provider a call is made on. *)
Definition receiver c : ServiceProvider World App :=
  match c with
  | CallConfigure prov _ => prov
  | CallRegister prov _ => prov
  | CallBoot prov _ => prov
  end.

Definition isConfigureCall c : Prop :=
  match c with
  | CallConfigure _ _ => True
  | _ => False
  end.

Definition isRegisterCall c : Prop :=
  match c with
  | CallRegister _ _ => True
  | _ => False
  end.

Definition isBootCall c : Prop :=
  match c with
  | CallBoot _ _ => True
  | _ => False
  end.

Global Instance isConfigureCall_dec c : Decision (isConfigureCall c).
Proof. destruct c; simpl; apply _. Defined.

Global Instance isRegisterCall_dec c : Decision (isRegisterCall c).
Proof. destruct c; simpl; apply _. Defined.

Global Instance isBootCall_dec c : Decision (isBootCall c).
Proof. destruct c; simpl; apply _. Defined.

(** A call that returned the nil error, and one that returned [err]. *)
Definition completed c : Event World App :=
  {| call := c; returned := None |}.

Definition failed c (err : error) : Event World App :=
  {| call := c; returned := Some err |}.

(** The [Register] calls and the [Boot] calls of a log, in order, and their
    receivers. *)
Definition registerCalls t : list (Call World App) :=
  filter isRegisterCall (call <$> t).

Definition bootCalls t : list (Call World App) :=
  filter isBootCall (call <$> t).

Definition registered t : list (ServiceProvider World App) :=
  receiver <$> registerCalls t.

Definition booted t : list (ServiceProvider World App) :=
  receiver <$> bootCalls t.

(** The calls logged between the states [m] and [m']. *)
Definition loggedSince (m m' : Machine World App) : list (Event World App) :=
  drop (length (calls m)) (calls m').

(** The calls that [LoadProviders app] makes when started in [m]. *)
Definition loadLog (app : App) (m : Machine World App)
  : list (Event World App) :=
  loggedSince m (LoadProviders app m).1.

(** The enabled providers of a list, in the list's order. *)
Definition enabledProviders (p : Provider)
    (providers : list (ServiceProvider World App))
  : list (ServiceProvider World App) :=
  filter (λ prov, IsProviderEnabled p (Name prov) = true) providers.

(** The [Configure] call the first pass makes on a provider before it
    registers it, if any. *)
Definition configureCalls (p : Provider) prov : list (Call World App) :=
  match Configure prov with
  | Some _ =>
      match GetProviderConfig p (Name prov) with
      | Some cfg => [CallConfigure prov (Some cfg)]
      | None => []
      end
  | None => []
  end.

(** The log of the first pass over the enabled providers [L], with the
    error the pass returns early, if any. *)
Inductive RegisterTrace (p : Provider) (app : App)
  : list (ServiceProvider World App) → list (Event World App)
    → option error → Prop :=
| RegisterTrace_done :
    RegisterTrace p app [] [] None
| RegisterTrace_next prov L t r :
    RegisterTrace p app L t r →
    RegisterTrace p app (prov :: L)
      ((completed <$> configureCalls p prov)
         ++ completed (CallRegister prov app) :: t) r
| RegisterTrace_configure_failed prov L configure cfg err :
    Configure prov = Some configure →
    GetProviderConfig p (Name prov) = Some cfg →
    RegisterTrace p app (prov :: L)
      [failed (CallConfigure prov (Some cfg)) err]
      (Some (failedTo "configure" prov err))
| RegisterTrace_register_failed prov L err :
    RegisterTrace p app (prov :: L)
      ((completed <$> configureCalls p prov)
         ++ [failed (CallRegister prov app) err])
      (Some (failedTo "register" prov err)).

(** The log of the second pass over the registered providers [L], with the
    error it returns. *)
Inductive BootTrace (app : App)
  : list (ServiceProvider World App) → list (Event World App)
    → option error → Prop :=
| BootTrace_done :
    BootTrace app [] [] None
| BootTrace_next prov L t r :
    BootTrace app L t r →
    BootTrace app (prov :: L) (completed (CallBoot prov app) :: t) r
| BootTrace_optional_failed prov L t r err :
    isOptional prov = true →
    BootTrace app L t r →
    BootTrace app (prov :: L) (failed (CallBoot prov app) err :: t) r
| BootTrace_required_failed prov L err :
    isOptional prov = false →
    BootTrace app (prov :: L) [failed (CallBoot prov app) err]
      (Some (failedTo "boot" prov err)).

(** The log of a whole load over the enabled providers [L]. *)
Inductive LoadTrace (p : Provider) (app : App)
    (L : list (ServiceProvider World App))
  : list (Event World App) → option error → Prop :=
| LoadTrace_register_failed t1 err :
    RegisterTrace p app L t1 (Some err) →
    LoadTrace p app L t1 (Some err)
| LoadTrace_booted t1 t2 r :
    RegisterTrace p app L t1 None →
    BootTrace app L t2 r →
    LoadTrace p app L (t1 ++ t2) r.

End trace_spec.

(** ** Programs built from the package's operations *)

Section programs_spec.

Context {World App : Type}.
Implicit Types (prov : ServiceProvider World App).
Implicit Types (m : Machine World App).

(** Start-up: the providers register themselves one after the other, as the
    [init] functions of their packages do.  The first panic ends the
    program. *)
Fixpoint registerEach (providers : list (ServiceProvider World App)) m
  : Machine World App * outcome unit :=
  match providers with
  | [] => (m, Returned ())
  | provider :: rest =>
      match RegisterGlobalProvider provider m with
      | (m', Returned _) => registerEach rest m'
      | (m', Panicked pn) => (m', Panicked pn)
      end
  end.

(** The machine with another registry, and with another loader. *)
Definition withRegistry (providers : list (ServiceProvider World App)) m
  : Machine World App :=
  {| globalProviders := providers;
     loader := loader m;
     world := world m;
     calls := calls m |}.

Definition withLoader (p : Provider) m : Machine World App :=
  {| globalProviders := globalProviders m;
     loader := p;
     world := world m;
     calls := calls m |}.

(** The two passes of [LoadProviders] over a list that is already sorted. *)
Definition loadSorted (app : App)
    (sortedProviders : list (ServiceProvider World App)) m
  : Machine World App * outcome (option error) :=
  match registerPass app sortedProviders [] m with
  | (m1, inl err) => (m1, Returned (Some err))
  | (m1, inr registeredProviders) =>
      let '(m2, err) := bootPass app registeredProviders m1 in
      (m2, Returned err)
  end.

End programs_spec.

(** ** The sanitization helpers (package [helpers])

    A Go string is the sequence of its bytes.  Three of the six regular
    expressions match one ASCII byte or a fixed run of three, and are
    modelled.  The other three and [strings.TrimSpace] are left open: the
    functions below take them as arguments, any function on strings. *)
Module helpers.

(** The class of [controlCharsRegex], [[\x00-\x08\x0B\x0C\x0E-\x1F\x7F]]. *)
Definition controlChar (c : ascii) : Prop :=
  (nat_of_ascii c ≤ 8 ∨ nat_of_ascii c = 11 ∨ nat_of_ascii c = 12
   ∨ (14 ≤ nat_of_ascii c ∧ nat_of_ascii c ≤ 31) ∨ nat_of_ascii c = 127)%nat.

(** The class of [ldapCharsRegex], [[()&|!]]. *)
Definition ldapChar (c : ascii) : Prop :=
  c ∈ ["("; ")"; "&"; "|"; "!"]%char.

(** The separators of [pathTraversalRegex], [[\\/]]. *)
Definition separator (c : ascii) : Prop :=
  c = "/"%char ∨ c = "\"%char.

Global Instance controlChar_dec c : Decision (controlChar c).
Proof. unfold controlChar. apply _. Defined.

Global Instance ldapChar_dec c : Decision (ldapChar c).
Proof. unfold ldapChar. apply _. Defined.

Global Instance separator_dec c : Decision (separator c).
Proof. unfold separator. apply _. Defined.

(** [controlCharsRegex.ReplaceAllString(input, "")] and
    [ldapCharsRegex.ReplaceAllString(input, "")]: the bytes outside the class,
    in order.  A byte below 128 is a rune of its own in any string, valid
    UTF-8 or not, so the classes see exactly these bytes. *)
Definition controlCharsRegex (input : list ascii) : list ascii :=
  filter (λ c, ¬ controlChar c) input.

Definition ldapCharsRegex (input : list ascii) : list ascii :=
  filter (λ c, ¬ ldapChar c) input.

(** [pathTraversalRegex.ReplaceAllString(input, "")], for [\.\.[\\/]]: the
    matches are taken from the left and do not overlap, so the scan drops
    three bytes where two dots and a separator start, and keeps one byte
    elsewhere. *)
Fixpoint pathTraversalRegex (input : list ascii) : list ascii :=
  match input with
  | [] => []
  | a :: input1 =>
      match input1 with
      | b :: c :: rest =>
          if decide (a = "."%char ∧ b = "."%char ∧ separator c)
          then pathTraversalRegex rest
          else a :: pathTraversalRegex input1
      | _ => a :: pathTraversalRegex input1
      end
  end.

(** [html.EscapeString]: five bytes are replaced by entities. *)
Definition escape (c : ascii) : list ascii :=
  if decide (c = "&"%char) then String.list_ascii_of_string "&amp;"
  else if decide (c = "'"%char) then String.list_ascii_of_string "&#39;"
  else if decide (c = "<"%char) then String.list_ascii_of_string "&lt;"
  else if decide (c = ">"%char) then String.list_ascii_of_string "&gt;"
  else if decide (c = "034"%char) then String.list_ascii_of_string "&#34;"
  else [c].

Definition EscapeString (input : list ascii) : list ascii :=
  input ≫= escape.

(** The bytes [html.EscapeString] replaces, but for [&], which its entities
    bring back. *)
Definition markup (c : ascii) : Prop :=
  c ∈ ["<"; ">"; "'"; "034"]%char.

(** Has the input a place where [pathTraversalRegex] matches? *)
Definition traverses (input : list ascii) : Prop :=
  ∃ pre c post,
    input = pre ++ "."%char :: "."%char :: c :: post ∧ separator c.

Section sanitization.

(** [strings.TrimSpace]. *)
Variable TrimSpace : list ascii → list ascii.

(** [scriptTagRegex.ReplaceAllString(input, "")] and the same for
    [onEventRegex] and [javascriptRegex]. *)
Variable scriptTagRegex : list ascii → list ascii.
Variable onEventRegex : list ascii → list ascii.
Variable javascriptRegex : list ascii → list ascii.

Definition CleanXSS (input : list ascii) : list ascii :=
  if decide (input = []) then input
  else
    let input := scriptTagRegex input in
    let input := onEventRegex input in
    let input := javascriptRegex input in
    let input := EscapeString input in
    TrimSpace input.

Definition CleanInjection (input : list ascii) : list ascii :=
  if decide (input = []) then input
  else
    let input := controlCharsRegex input in
    let input := ldapCharsRegex input in
    TrimSpace input.

Definition CleanPathTraversal (input : list ascii) : list ascii :=
  if decide (input = []) then input
  else
    let input := pathTraversalRegex input in
    TrimSpace input.

Definition CleanAll (input : list ascii) : list ascii :=
  if decide (input = []) then input
  else
    let input := scriptTagRegex input in
    let input := onEventRegex input in
    let input := javascriptRegex input in
    let input := controlCharsRegex input in
    let input := ldapCharsRegex input in
    let input := pathTraversalRegex input in
    let input := EscapeString input in
    TrimSpace input.

(** The method [(h *Helpers) Sanitize]. *)
Definition Sanitize (input : list ascii) : list ascii :=
  let cleaned := CleanAll input in
  cleaned.

End sanitization.

(** A [TrimSpace] for the examples: it trims the six ASCII white-space bytes
    only. *)
Definition asciiSpace (c : ascii) : Prop :=
  (9 ≤ nat_of_ascii c ∧ nat_of_ascii c ≤ 13)%nat ∨ c = " "%char.

Global Instance asciiSpace_dec c : Decision (asciiSpace c).
Proof. unfold asciiSpace. apply _. Defined.

Fixpoint trimLeft (s : list ascii) : list ascii :=
  match s with
  | [] => []
  | c :: s' => if decide (asciiSpace c) then trimLeft s' else s
  end.

Definition trimASCII (s : list ascii) : list ascii :=
  reverse (trimLeft (reverse (trimLeft s))).

End helpers.

(** ** Concrete providers

    The mocks of [provider_test.go].  The world is the shared
    [executionOrder] slice of the tracking provider: every callback appends
    its own mark to it. *)
Module Example.

Definition World : Type := list string.
Definition App : Type := unit.

Definition mark (name what : string) (err : option error)
  : World → World * option error :=
  λ w, (w ++ [name +:+ "-" +:+ what], err).

(** [mockProvider]: implements every optional interface; [Register] and
    [Boot] return the errors it was built with, [Configure] returns nil. *)
Definition mockProvider (name : string) (priority : Z) (isOptional : bool)
    (registerErr bootErr : option error) : ServiceProvider World App :=
  {| Name := name;
     Register := λ _, mark name "register" registerErr;
     Boot := λ _, mark name "boot" bootErr;
     Configure := Some (λ _, mark name "configure" None);
     Priority := Some priority;
     IsOptional := Some isOptional |}.

(** [noPriorityProvider]: the three required methods only. *)
Definition noPriorityProvider (name : string) : ServiceProvider World App :=
  {| Name := name;
     Register := λ _, mark name "register" None;
     Boot := λ _, mark name "boot" None;
     Configure := None;
     Priority := None;
     IsOptional := None |}.

(** A loader whose two maps were just made. *)
Definition fresh : Provider :=
  {| EnabledProviders := ∅; ProviderConfigs := ∅ |}.

Definition start (providers : list (ServiceProvider World App))
    (p : Provider) : Machine World App :=
  {| globalProviders := providers; loader := p; world := []; calls := [] |}.

Definition first := mockProvider "first" 10 false None None.
Definition second := mockProvider "second" 50 false None None.
Definition third := mockProvider "third" 90 false None None.
Definition plain := noPriorityProvider "plain".
Definition flaky :=
  mockProvider "flaky" 20 true None (Some (New "boot failed")).
Definition broken :=
  mockProvider "broken" 20 false None (Some (New "boot failed")).
Definition failing :=
  mockProvider "failing" 20 false (Some (New "register failed")) None.


End Example.

(** ** Stable sorting in general *)

Section stable.

Context {A : Type} (rank : A → Z).
Implicit Types (l : list A).

Lemma filter_rank_above l c :
  Forall (λ a, rank a > c) l → filter (λ a, rank a = c) l = [].
Proof.
  induction 1 as [|a l Ha _ IH]; [done|].
  rewrite filter_cons_False by lia. done.
Qed.

Lemma ascending_cons a l :
  ascending rank (a :: l) ↔ Forall (λ b, rank a ≤ rank b) l ∧ ascending rank l.
Proof. apply StronglySorted_cons. Qed.

Lemma ascending_filter (Q : A → Prop) `{!∀ a, Decision (Q a)} l :
  ascending rank l → ascending rank (filter Q l).
Proof.
  induction l as [|a l IH]; [done|].
  rewrite ascending_cons. intros [Hal Hl].
  rewrite filter_cons. destruct (decide (Q a)); [|by auto].
  apply ascending_cons. split; [|by auto].
  apply Forall_forall. intros b [_ Hb]%list_elem_of_filter.
  rewrite Forall_forall in Hal. auto.
Qed.

Lemma ascending_fmap {B} (g : B → A) (k : list B) :
  ascending rank (g <$> k) → ascending (rank ∘ g) k.
Proof.
  induction k as [|b k IH]; csimpl; [constructor|].
  rewrite ascending_cons. intros [Hb Hk].
  apply StronglySorted_cons. split; [|by apply IH].
  by rewrite Forall_fmap in Hb.
Qed.

Lemma sameOrderPerRank_filter (Q : A → Prop) `{!∀ a, Decision (Q a)} l1 l2 :
  sameOrderPerRank rank l1 l2 →
  sameOrderPerRank rank (filter Q l1) (filter Q l2).
Proof.
  intros Hsame c.
  assert (∀ l, filter (λ a, rank a = c) (filter Q l)
               = filter Q (filter (λ a, rank a = c) l)) as Hcomm.
  { intros l. rewrite !list_filter_filter.
    apply list_filter_iff. tauto. }
  by rewrite !Hcomm, (Hsame c).
Qed.

(** Two ascending lists that agree rank by rank are the same list: the
    result of a stable sort is determined by its input. *)
Lemma ascending_sameOrder_eq l1 l2 :
  ascending rank l1 → ascending rank l2 → sameOrderPerRank rank l1 l2 →
  l1 = l2.
Proof.
  revert l2. induction l1 as [|x l1 IH]; intros l2 H1 H2 Hsame.
  - destruct l2 as [|y l2]; [done|].
    specialize (Hsame (rank y)). by rewrite filter_nil, filter_cons_True in Hsame.
  - destruct l2 as [|y l2].
    { specialize (Hsame (rank x)).
      by rewrite filter_nil, filter_cons_True in Hsame. }
    apply ascending_cons in H1 as [Hx H1].
    apply ascending_cons in H2 as [Hy H2].
    rewrite Forall_forall in Hx, Hy.
    assert (rank x = rank y) as Hxy.
    { assert (rank x ≤ rank y).
      { assert (y ∈ filter (λ a, rank a = rank y) (x :: l1)) as Hin
          by (rewrite (Hsame (rank y)), filter_cons_True by done; left).
        apply list_elem_of_filter in Hin as [_ Hin].
        apply elem_of_cons in Hin as [->|Hin]; [lia|auto]. }
      assert (rank y ≤ rank x).
      { assert (x ∈ filter (λ a, rank a = rank x) (y :: l2)) as Hin
          by (rewrite <- (Hsame (rank x)), filter_cons_True by done; left).
        apply list_elem_of_filter in Hin as [_ Hin].
        apply elem_of_cons in Hin as [->|Hin]; [lia|auto]. }
      lia. }
    assert (x = y ∧ sameOrderPerRank rank l1 l2) as [-> Htl].
    { pose proof (Hsame (rank x)) as Hc.
      rewrite !filter_cons_True in Hc by done.
      split; [congruence|]. intros c.
      destruct (decide (c = rank x)) as [->|Hne]; [congruence|].
      specialize (Hsame c).
      rewrite !filter_cons_False in Hsame by congruence. done. }
    f_equal. by apply IH.
Qed.

Lemma stablySorted_unique input l1 l2 :
  stablySorted rank input l1 → stablySorted rank input l2 → l1 = l2.
Proof.
  intros (_ & H1 & S1) (_ & H2 & S2).
  apply ascending_sameOrder_eq; [done..|].
  intros c. by rewrite S1, S2.
Qed.

Lemma stablySorted_filter (Q : A → Prop) `{!∀ a, Decision (Q a)} input l :
  stablySorted rank input l → stablySorted rank (filter Q input) (filter Q l).
Proof.
  intros (Hp & Ha & Hs). split_and!.
  - by rewrite Hp.
  - by apply ascending_filter.
  - by apply sameOrderPerRank_filter.
Qed.

End stable.

(** ** The insertion sort *)

Section sorting.

Context {World App : Type}.
Implicit Types (key : providerWithPriority World App).
Implicit Types (P rest : list (providerWithPriority World App)).
Implicit Types (p : Provider).
Implicit Types (prov : ServiceProvider World App).

Lemma landing_le key P j1 : (landing key P j1 ≤ j1)%nat.
Proof.
  induction j1 as [|j IH]; simpl; [lia|].
  destruct (P !! j); [|lia]. case_bool_decide; lia.
Qed.

(** The inner loop moves the hole at [j1] down to [landing key P j1] and
    touches nothing outside the prefix. *)
Lemma shiftRight_landing key P rest j1 h :
  (j1 ≤ length P)%nat →
  ∃ h', shiftRight key j1 (take j1 P ++ h :: drop j1 P ++ rest)
        = Some (take (landing key P j1) P ++ h' :: drop (landing key P j1) P ++ rest,
                landing key P j1).
Proof.
  revert h. induction j1 as [|j IH]; intros h Hj; simpl.
  { eauto. }
  destruct (lookup_lt_is_Some_2 P j) as [wj Hwj]; [lia|].
  rewrite lookup_app_l by (rewrite length_take; lia).
  rewrite lookup_take_lt by lia. rewrite Hwj. simpl.
  case_bool_decide; [|eauto].
  unfold store. rewrite decide_True.
  2:{ rewrite length_app, length_take, length_cons. lia. }
  simpl.
  rewrite insert_app_r_alt by (rewrite length_take; lia).
  replace (S j - length (take (S j) P))%nat with 0%nat
    by (rewrite length_take; lia).
  simpl. rewrite (take_S_r P j wj) by done.
  rewrite <- app_assoc. simpl.
  rewrite app_comm_cons, <- (drop_S P wj j) by done.
  apply IH. lia.
Qed.

(** One round on a slice whose first [length P] entries are [P]. *)
Lemma insertKey_insertRight key P rest :
  insertKey (P ++ key :: rest) (length P) = Some (insertRight key P ++ rest).
Proof.
  unfold insertKey.
  rewrite list_lookup_middle by done. simpl.
  destruct (shiftRight_landing key P rest (length P) key) as [h' Hs]; [lia|].
  rewrite firstn_all, drop_all in Hs. simpl in Hs. rewrite Hs. simpl.
  unfold store. pose proof (landing_le key P (length P)) as Hle.
  rewrite decide_True.
  2:{ rewrite length_app, length_take, length_cons. lia. }
  rewrite insert_app_r_alt by (rewrite length_take; lia).
  replace (landing key P (length P) - length (take (landing key P (length P)) P))%nat
    with 0%nat by (rewrite length_take; lia).
  simpl. unfold insertRight. by rewrite <- app_assoc.
Qed.

Lemma insertFrom_insertAll P rest :
  insertFrom (length P) (length rest) (P ++ rest) = Some (insertAll P rest).
Proof.
  revert P. induction rest as [|key rest IH]; intros P; simpl.
  { by rewrite app_nil_r. }
  rewrite insertKey_insertRight. simpl.
  replace (S (length P)) with (length (insertRight key P)).
  - apply IH.
  - unfold insertRight. rewrite length_app. simpl.
    rewrite length_take, length_drop.
    pose proof (landing_le key P (length P)). lia.
Qed.

(** The sort never indexes out of range, and computes [insertAll]. *)
Lemma insertionSort_insertAll P : insertionSort P = Some (insertAll [] P).
Proof.
  unfold insertionSort. destruct P as [|key rest]; [done|].
  simpl. rewrite Nat.sub_0_r.
  apply (insertFrom_insertAll [key] rest).
Qed.

(** Everything right of the landing place outranks the key. *)
Lemma landing_tail key P j1 :
  (j1 ≤ length P)%nat →
  Forall (λ w, priority w > priority key) (drop j1 P) →
  Forall (λ w, priority w > priority key) (drop (landing key P j1) P).
Proof.
  induction j1 as [|j IH]; intros Hj Hd; simpl; [done|].
  destruct (lookup_lt_is_Some_2 P j) as [wj Hwj]; [lia|].
  rewrite Hwj. case_bool_decide; [|done].
  apply IH; [lia|]. rewrite (drop_S P wj j) by done. by constructor.
Qed.

(** The scan stops at the start of the slice or just right of an entry that
    does not outrank the key. *)
Lemma landing_stop key P j1 :
  (j1 ≤ length P)%nat →
  landing key P j1 = 0%nat ∨
  ∃ j wj, landing key P j1 = S j ∧ P !! j = Some wj ∧ priority wj ≤ priority key.
Proof.
  induction j1 as [|j IH]; intros Hj; simpl; [by left|].
  destruct (lookup_lt_is_Some_2 P j) as [wj Hwj]; [lia|].
  rewrite Hwj. case_bool_decide.
  - apply IH. lia.
  - right. exists j, wj. split_and!; [done..|lia].
Qed.

Lemma insertRight_ascending key P :
  ascending priority P → ascending priority (insertRight key P).
Proof.
  intros HP. unfold insertRight.
  pose proof (landing_tail key P (length P)) as Htail.
  rewrite drop_all in Htail. specialize (Htail ltac:(lia) ltac:(constructor)).
  pose proof (landing_stop key P (length P) ltac:(lia)) as Hstop.
  revert Htail Hstop. generalize (landing key P (length P)) as k.
  intros k Htail Hstop. rewrite Forall_forall in Htail.
  rewrite <- (take_drop k P) in HP.
  apply StronglySorted_app in HP as (Hcross & Htake & Hdrop).
  apply StronglySorted_app_2; [|done|].
  - intros x1 x2 Hx1 [->|Hx2]%elem_of_cons; [|by auto].
    destruct Hstop as [H0|(j & wj & HS & Hwj & Hle)].
    + rewrite H0 in Hx1. by apply elem_of_nil in Hx1.
    + rewrite HS, (take_S_r P j wj) in Hx1, Htake by done.
      apply elem_of_app in Hx1 as [Hx1|Hx1].
      * apply StronglySorted_app in Htake as (Hc & _ & _).
        specialize (Hc x1 wj Hx1 ltac:(left)). simpl in Hc. lia.
      * apply list_elem_of_singleton in Hx1 as ->. done.
  - apply StronglySorted_cons. split; [|done].
    apply Forall_forall. intros w Hw. specialize (Htail w Hw). simpl in *. lia.
Qed.

Lemma insertRight_filter key P c :
  filter (λ w, priority w = c) (insertRight key P)
  = filter (λ w, priority w = c) (P ++ [key]).
Proof.
  unfold insertRight.
  pose proof (landing_tail key P (length P)) as Htail.
  rewrite drop_all in Htail. specialize (Htail ltac:(lia) ltac:(constructor)).
  revert Htail. generalize (landing key P (length P)) as k. intros k Htail.
  rewrite <- (take_drop k P) at 3.
  rewrite !filter_app, <- app_assoc. f_equal.
  destruct (decide (priority key = c)) as [<-|Hne].
  - rewrite filter_cons_True by done.
    rewrite (filter_rank_above priority _ _ Htail).
    by rewrite filter_cons_True.
  - rewrite !filter_cons_False by done.
    by rewrite filter_nil, app_nil_r.
Qed.

Lemma insertRight_perm key P : insertRight key P ≡ₚ P ++ [key].
Proof.
  unfold insertRight.
  rewrite <- Permutation_middle, take_drop.
  by rewrite Permutation_app_comm.
Qed.

Lemma insertAll_perm P rest : insertAll P rest ≡ₚ P ++ rest.
Proof.
  revert P. induction rest as [|key rest IH]; intros P; simpl.
  - by rewrite app_nil_r.
  - unfold insertAll in *. simpl. rewrite IH, insertRight_perm.
    by rewrite <- app_assoc.
Qed.

Lemma insertAll_ascending P rest :
  ascending priority P → ascending priority (insertAll P rest).
Proof.
  revert P. induction rest as [|key rest IH]; intros P HP; [done|].
  apply IH. by apply insertRight_ascending.
Qed.

Lemma insertAll_filter P rest c :
  filter (λ w, priority w = c) (insertAll P rest)
  = filter (λ w, priority w = c) (P ++ rest).
Proof.
  revert P. induction rest as [|key rest IH]; intros P; simpl.
  - by rewrite app_nil_r.
  - unfold insertAll in *. simpl. rewrite IH.
    rewrite filter_app, insertRight_filter, <- filter_app.
    by rewrite <- app_assoc.
Qed.

Lemma insertionSort_stablySorted P :
  ∃ P', insertionSort P = Some P' ∧ stablySorted priority P P'.
Proof.
  exists (insertAll [] P). split; [apply insertionSort_insertAll|].
  split_and!.
  - apply insertAll_perm.
  - apply insertAll_ascending. constructor.
  - intros c. apply insertAll_filter.
Qed.

(** [sortProvidersByPriority] does not panic, and stably sorts its argument
    by resolved priority. *)
Lemma sortProvidersByPriority_stablySorted p (providers : list (ServiceProvider World App)) :
  ∃ sorted, sortProvidersByPriority p providers = Some sorted ∧
            stablySorted (resolvePriority p) providers sorted.
Proof.
  unfold sortProvidersByPriority.
  destruct (insertionSort_stablySorted (assignPriorities p providers))
    as (S & -> & Hperm & Hasc & Hsame).
  exists (provider <$> S). split; [done|].
  set (pair := λ prov, {| provider := prov; priority := resolvePriority p prov |}).
  assert (S = pair <$> (provider <$> S)) as HS.
  { rewrite <- list_fmap_compose. rewrite <- (list_fmap_id S) at 1.
    apply list_fmap_ext. intros i w Hw.
    assert (w ∈ assignPriorities p providers) as Hin
      by (rewrite <- Hperm; eapply list_elem_of_lookup_2; done).
    apply list_elem_of_fmap in Hin as (prov & -> & _). done. }
  assert (∀ l : list _, provider <$> (pair <$> l) = l) as Hinv.
  { intros l. rewrite <- list_fmap_compose. apply list_fmap_id. }
  split_and!.
  - rewrite Hperm. unfold assignPriorities. fold pair. by rewrite Hinv.
  - rewrite HS in Hasc. by apply ascending_fmap in Hasc.
  - intros c. specialize (Hsame c).
    rewrite HS in Hsame. unfold assignPriorities in Hsame. fold pair in Hsame.
    assert (∀ l : list _, filter (λ w, priority w = c) (pair <$> l)
                 = pair <$> filter (λ prov, resolvePriority p prov = c) l) as Hf.
    { induction l as [|a l IH]; [done|]. csimpl.
      rewrite !filter_cons. simpl.
      destruct (decide (resolvePriority p a = c)); csimpl; by rewrite IH. }
    rewrite !Hf in Hsame.
    apply (f_equal (fmap (M:=list) provider)) in Hsame. by rewrite !Hinv in Hsame.
Qed.

End sorting.

(** ** The two passes *)

Section passes.

Context {World App : Type}.
Implicit Types (prov : ServiceProvider World App).
Implicit Types (m : Machine World App).
Implicit Types (t : list (Event World App)).

Lemma invoke_inv c f m m1 err :
  invoke c f m = (m1, err) →
  globalProviders m1 = globalProviders m ∧ loader m1 = loader m ∧
  calls m1 = calls m ++ [{| call := c; returned := err |}].
Proof.
  unfold invoke. destruct (f (world m)) as [w e]. intros [= <- <-]. done.
Qed.

Lemma configureProvider_inv prov m m1 cerr :
  configureProvider prov m = (m1, cerr) →
  globalProviders m1 = globalProviders m ∧ loader m1 = loader m ∧
  match cerr with
  | None => calls m1 = calls m ++ (completed <$> configureCalls (loader m) prov)
  | Some err =>
      ∃ configure cfg,
        Configure prov = Some configure ∧
        GetProviderConfig (loader m) (Name prov) = Some cfg ∧
        calls m1 = calls m ++ [failed (CallConfigure prov (Some cfg)) err]
  end.
Proof.
  unfold configureProvider, configureCalls.
  destruct (Configure prov) as [configure|] eqn:Hc.
  2:{ intros [= <- <-]. by rewrite app_nil_r. }
  destruct (GetProviderConfig (loader m) (Name prov)) as [cfg|] eqn:Hg.
  2:{ intros [= <- <-]. by rewrite app_nil_r. }
  intros (? & ? & Hcalls)%invoke_inv. split_and!; [done..|].
  destruct cerr; [|done]. eauto.
Qed.

Lemma registerPass_trace app sortedProviders registeredProviders m m' r :
  registerPass app sortedProviders registeredProviders m = (m', r) →
  globalProviders m' = globalProviders m ∧ loader m' = loader m ∧
  ∃ t, calls m' = calls m ++ t ∧
       match r with
       | inl err =>
           RegisterTrace (loader m) app
             (enabledProviders (loader m) sortedProviders) t (Some err)
       | inr registeredProviders' =>
           RegisterTrace (loader m) app
             (enabledProviders (loader m) sortedProviders) t None ∧
           registeredProviders' =
             registeredProviders ++ enabledProviders (loader m) sortedProviders
       end.
Proof.
  revert registeredProviders m.
  induction sortedProviders as [|prov rest IH]; intros acc m; simpl.
  { intros [= <- <-]. split_and!; [done..|]. exists [].
    rewrite !app_nil_r. split_and!; [done| |done]. constructor. }
  unfold enabledProviders. rewrite filter_cons.
  destruct (IsProviderEnabled (loader m) (Name prov)) eqn:Hen; simpl.
  2:{ apply IH. }
  fold (enabledProviders (loader m) rest).
  destruct (configureProvider prov m) as [m1 cerr] eqn:Hcfg.
  apply configureProvider_inv in Hcfg as (Hg1 & Hl1 & Hc1).
  destruct cerr as [err|].
  { intros [= <- <-]. destruct Hc1 as (configure & cfg & ? & ? & Hc1).
    split_and!; [done..|]. eexists. split; [done|].
    by eapply RegisterTrace_configure_failed. }
  destruct (invoke _ _ m1) as [m2 rerr] eqn:Hreg.
  apply invoke_inv in Hreg as (Hg2 & Hl2 & Hc2).
  destruct rerr as [err|].
  { intros [= <- <-]. split_and!; [congruence..|]. eexists. split.
    - rewrite Hc2, Hc1, <- app_assoc. done.
    - apply RegisterTrace_register_failed. }
  intros (Hg & Hl & t & Hc & Hr)%IH.
  split_and!; [congruence..|].
  exists ((completed <$> configureCalls (loader m) prov)
            ++ completed (CallRegister prov app) :: t).
  split.
  { rewrite Hc, Hc2, Hc1, <- !app_assoc. done. }
  rewrite Hl2, Hl1 in Hr.
  destruct r as [err|reg].
  - by apply RegisterTrace_next.
  - destruct Hr as [Hr ->]. split; [by apply RegisterTrace_next|].
    by rewrite <- app_assoc.
Qed.

Lemma bootPass_trace app registeredProviders m m' r :
  bootPass app registeredProviders m = (m', r) →
  globalProviders m' = globalProviders m ∧ loader m' = loader m ∧
  ∃ t, calls m' = calls m ++ t ∧ BootTrace app registeredProviders t r.
Proof.
  revert m. induction registeredProviders as [|prov rest IH]; intros m; simpl.
  { intros [= <- <-]. split_and!; [done..|]. exists [].
    rewrite app_nil_r. split; [done|constructor]. }
  destruct (invoke _ _ m) as [m1 berr] eqn:Hboot.
  apply invoke_inv in Hboot as (Hg1 & Hl1 & Hc1).
  destruct berr as [err|].
  - destruct (isOptional prov) eqn:Hopt.
    + intros (Hg & Hl & t & Hc & Hr)%IH. split_and!; [congruence..|].
      exists (failed (CallBoot prov app) err :: t). split.
      * rewrite Hc, Hc1, <- app_assoc. done.
      * by apply BootTrace_optional_failed.
    + intros [= <- <-]. split_and!; [done..|]. eexists. split; [done|].
      by apply BootTrace_required_failed.
  - intros (Hg & Hl & t & Hc & Hr)%IH. split_and!; [congruence..|].
    exists (completed (CallBoot prov app) :: t). split.
    + rewrite Hc, Hc1, <- app_assoc. done.
    + by apply BootTrace_next.
Qed.

(** [LoadProviders] always returns; it leaves the registry and the loader
    as they were, and logs a [LoadTrace] over the enabled providers in
    sorted order. *)
Lemma LoadProviders_trace app m :
  ∃ sorted m' t r,
    sortProvidersByPriority (loader m) (globalProviders m) = Some sorted ∧
    stablySorted (resolvePriority (loader m)) (globalProviders m) sorted ∧
    LoadProviders app m = (m', Returned r) ∧
    globalProviders m' = globalProviders m ∧ loader m' = loader m ∧
    calls m' = calls m ++ t ∧
    LoadTrace (loader m) app (enabledProviders (loader m) sorted) t r.
Proof.
  destruct (sortProvidersByPriority_stablySorted (loader m) (globalProviders m))
    as (sorted & Hsort & Hstable).
  exists sorted. unfold LoadProviders. rewrite firstn_all, Hsort.
  destruct (registerPass app sorted [] m) as [m1 [err|reg]] eqn:Hreg;
    apply registerPass_trace in Hreg as (Hg1 & Hl1 & t1 & Hc1 & Hr1).
  - exists m1, t1, (Some err). split_and!; [done..|].
    by apply LoadTrace_register_failed.
  - destruct Hr1 as [Hr1 ->]. simpl.
    destruct (bootPass app _ m1) as [m2 r] eqn:Hboot.
    apply bootPass_trace in Hboot as (Hg2 & Hl2 & t2 & Hc2 & Hr2).
    exists m2, (t1 ++ t2), r. split_and!; [done|done|done|congruence..| |].
    + rewrite Hc2, Hc1, <- app_assoc. done.
    + by apply LoadTrace_booted.
Qed.

(** The same, on the projections of the run. *)
Lemma LoadProviders_run app m :
  ∃ sorted r,
    sortProvidersByPriority (loader m) (globalProviders m) = Some sorted ∧
    stablySorted (resolvePriority (loader m)) (globalProviders m) sorted ∧
    (LoadProviders app m).2 = Returned r ∧
    globalProviders (LoadProviders app m).1 = globalProviders m ∧
    loader (LoadProviders app m).1 = loader m ∧
    LoadTrace (loader m) app (enabledProviders (loader m) sorted)
      (loadLog app m) r.
Proof.
  destruct (LoadProviders_trace app m)
    as (sorted & m' & t & r & Hsort & Hst & Hrun & Hg & Hl & Hc & Ht).
  exists sorted, r. unfold loadLog. rewrite Hrun. simpl.
  split_and!; [done..|].
  unfold loggedSince. by rewrite Hc, drop_app_length.
Qed.

End passes.

(** ** What the logs contain *)

Section traces.

Context {World App : Type}.
Implicit Types (prov : ServiceProvider World App).
Implicit Types (L : list (ServiceProvider World App)).
Implicit Types (m : Machine World App).
Implicit Types (c : Call World App) (e : Event World App).
Implicit Types (t : list (Event World App)).
Implicit Types (p : Provider).

(** Open the events of an equation between logs and use it. *)
Ltac simplify_events := unfold completed, failed in *; simplify_eq/=.

Lemma registerCalls_app t1 t2 :
  registerCalls (t1 ++ t2) = registerCalls t1 ++ registerCalls t2.
Proof. unfold registerCalls. by rewrite fmap_app, filter_app. Qed.

Lemma bootCalls_app t1 t2 : bootCalls (t1 ++ t2) = bootCalls t1 ++ bootCalls t2.
Proof. unfold bootCalls. by rewrite fmap_app, filter_app. Qed.

Lemma bootCalls_none t :
  Forall (λ e, ¬ isBootCall (call e)) t → bootCalls t = [].
Proof.
  induction 1 as [|e t He _ IH]; [done|].
  unfold bootCalls in *. csimpl. by rewrite filter_cons_False.
Qed.

Lemma registerCalls_none t :
  Forall (λ e, ¬ isRegisterCall (call e)) t → registerCalls t = [].
Proof.
  induction 1 as [|e t He _ IH]; [done|].
  unfold registerCalls in *. csimpl. by rewrite filter_cons_False.
Qed.

Lemma receiver_register_calls (app : App) L :
  receiver <$> ((λ prov, CallRegister prov app) <$> L) = L.
Proof. induction L as [|prov L IH]; csimpl; [done|]. by rewrite IH. Qed.

(** The [Configure] step makes no call, or one [Configure] call with the
    stored, non-nil configuration. *)
Lemma configureCalls_cases p prov :
  (configureCalls p prov = [] ∧
   (Configure prov = None ∨ GetProviderConfig p (Name prov) = None)) ∨
  (∃ configure cfg,
      Configure prov = Some configure ∧
      GetProviderConfig p (Name prov) = Some cfg ∧
      configureCalls p prov = [CallConfigure prov (Some cfg)]).
Proof.
  unfold configureCalls.
  destruct (Configure prov) as [configure|]; [|by auto].
  destruct (GetProviderConfig p (Name prov)) as [cfg|]; [|by auto].
  right. eauto.
Qed.

Lemma configureCalls_Forall p prov :
  Forall (λ e, isConfigureCall (call e) ∧ receiver (call e) = prov
               ∧ returned e = None)
    (completed <$> configureCalls p prov).
Proof.
  destruct (configureCalls_cases p prov)
    as [[-> _]|(configure & cfg & _ & _ & ->)]; csimpl; repeat constructor.
Qed.

Lemma RegisterTrace_no_boot p app L t r :
  RegisterTrace p app L t r → Forall (λ e, ¬ isBootCall (call e)) t.
Proof.
  induction 1; rewrite ?Forall_app, ?Forall_cons; split_and?;
    try done; simpl; auto;
    eapply Forall_impl; try apply configureCalls_Forall;
    intros [[] ?]; simpl; tauto.
Qed.

Lemma RegisterTrace_receivers p app L t r :
  RegisterTrace p app L t r → Forall (λ e, receiver (call e) ∈ L) t.
Proof.
  induction 1; rewrite ?Forall_app, ?Forall_cons; split_and?;
    try done; simpl; try (by left).
  - eapply Forall_impl; [apply configureCalls_Forall|].
    intros e (_ & -> & _). left.
  - eapply Forall_impl; [done|]. intros e He. by right.
  - eapply Forall_impl; [apply configureCalls_Forall|].
    intros e (_ & -> & _). left.
Qed.

Lemma registerCalls_configure p prov :
  registerCalls (completed <$> configureCalls p prov) = [].
Proof.
  apply registerCalls_none.
  eapply Forall_impl; [apply configureCalls_Forall|].
  intros [[] ?]; simpl; tauto.
Qed.

Lemma RegisterTrace_prefix p app L t r :
  RegisterTrace p app L t r →
  registerCalls t `prefix_of` (λ prov, CallRegister prov app) <$> L.
Proof.
  induction 1; csimpl.
  - done.
  - rewrite registerCalls_app, registerCalls_configure. simpl.
    unfold registerCalls in *. csimpl. rewrite filter_cons_True by done.
    by apply prefix_cons.
  - apply prefix_nil.
  - rewrite registerCalls_app, registerCalls_configure. simpl.
    unfold registerCalls. csimpl. rewrite filter_cons_True by done.
    apply prefix_cons, prefix_nil.
Qed.

(** A first pass that runs to its end completed every call and registered
    every provider of [L], in order. *)
Lemma RegisterTrace_done_all p app L t r :
  RegisterTrace p app L t r → r = None →
  Forall (λ e, returned e = None) t ∧
  registerCalls t = (λ prov, CallRegister prov app) <$> L.
Proof.
  induction 1 as [|prov L t r H IH| |]; intros Hr; try discriminate.
  - done.
  - destruct (IH Hr) as [IH1 IH2]. split.
    + rewrite Forall_app, Forall_cons. split_and!; [|done..].
      eapply Forall_impl; [apply configureCalls_Forall|].
      by intros e (_ & _ & ?).
    + rewrite registerCalls_app, registerCalls_configure. simpl.
      unfold registerCalls in *. csimpl. rewrite filter_cons_True by done.
      by f_equal.
Qed.

(** In the first pass a call that returns an error is the last call, and
    the pass returns that error wrapped with the provider's name. *)
Lemma RegisterTrace_failure p app L t r t1 e t2 err :
  RegisterTrace p app L t r →
  t = t1 ++ e :: t2 → returned e = Some err →
  t2 = [] ∧
  match call e with
  | CallConfigure prov _ => r = Some (failedTo "configure" prov err)
  | CallRegister prov _ => r = Some (failedTo "register" prov err)
  | CallBoot _ _ => False
  end.
Proof.
  intros H. revert t1.
  induction H as [|prov L t r H IH|prov L configure cfg err' Hc Hg|prov L err'];
    intros t1 Ht Herr.
  - by destruct t1.
  - destruct (configureCalls_cases p prov)
      as [[Hcc _]|(configure & cfg & _ & _ & Hcc)]; rewrite Hcc in Ht;
      csimpl in Ht.
    + destruct t1 as [|e1 t1]; simplify_eq/=. by eapply IH.
    + destruct t1 as [|e1 [|e2 t1]]; simplify_eq/=. by eapply IH.
  - destruct t1 as [|e1 [|e2 t1]]; simplify_eq/=. done.
  - destruct (configureCalls_cases p prov)
      as [[Hcc _]|(configure & cfg & _ & _ & Hcc)]; rewrite Hcc in Ht;
      csimpl in Ht.
    + destruct t1 as [|e1 [|e2 t1]]; simplify_eq/=. done.
    + destruct t1 as [|e1 [|e2 [|e3 t1]]]; simplify_eq/=. done.
Qed.

(** *** The second pass *)

Lemma BootTrace_only_boot app L t r :
  BootTrace app L t r → Forall (λ e, isBootCall (call e)) t.
Proof. induction 1; repeat constructor; done. Qed.

Lemma BootTrace_no_register app L t r :
  BootTrace app L t r → registerCalls t = [].
Proof.
  intros H. apply registerCalls_none.
  eapply Forall_impl; [by eapply BootTrace_only_boot|].
  intros [[] ?]; simpl; tauto.
Qed.

Lemma bootCalls_only_boot t :
  Forall (λ e, isBootCall (call e)) t → bootCalls t = call <$> t.
Proof.
  induction 1 as [|e t He _ IH]; [done|].
  unfold bootCalls in *. csimpl. rewrite filter_cons_True by done.
  by f_equal.
Qed.

Lemma BootTrace_done_all app L t r :
  BootTrace app L t r → r = None →
  call <$> t = (λ prov, CallBoot prov app) <$> L.
Proof.
  induction 1; intros Hr; try discriminate; csimpl; f_equal; auto.
Qed.

(** A failing [Boot] of a provider that is not optional ends the pass. *)
Lemma BootTrace_failure_required app L t r t1 prov a err t2 :
  BootTrace app L t r →
  t = t1 ++ failed (CallBoot prov a) err :: t2 →
  isOptional prov = false →
  t2 = [] ∧ r = Some (failedTo "boot" prov err).
Proof.
  intros H. revert t1.
  induction H as [|prov' L t r H IH|prov' L t r err' Hopt H IH|prov' L err' Hopt];
    intros t1 Ht Hreq.
  - by destruct t1.
  - destruct t1 as [|e1 t1]; simplify_eq/=. by eapply IH.
  - destruct t1 as [|e1 t1]; simplify_eq/=; [congruence|]. by eapply IH.
  - destruct t1 as [|e1 [|e2 t1]]; simplify_eq/=. done.
Qed.

(** After a failing [Boot] of an optional provider the pass goes on with the
    next registered provider; when there is none left it returns nil. *)
Lemma BootTrace_failure_optional app L t r t1 prov a err t2 :
  BootTrace app L t r →
  t = t1 ++ failed (CallBoot prov a) err :: t2 →
  isOptional prov = true →
  a = app ∧
  ∃ after,
    L = (receiver <$> (call <$> t1)) ++ prov :: after ∧
    match after with
    | [] => t2 = [] ∧ r = None
    | next :: _ =>
        ∃ res t3, t2 = {| call := CallBoot next app; returned := res |} :: t3
    end.
Proof.
  intros H. revert t1.
  induction H as [|prov' L t r H IH|prov' L t r err' Hopt H IH|prov' L err' Hopt];
    intros t1 Ht Hreq.
  - by destruct t1.
  - destruct t1 as [|e1 t1]; simplify_eq/=.
    destruct (IH t1 eq_refl Hreq) as (-> & after & -> & Hnext).
    split; [done|]. by exists after.
  - destruct t1 as [|e1 t1]; simplify_eq/=.
    + split; [done|]. exists L. split; [done|].
      inversion H; subst; eauto.
    + destruct (IH t1 eq_refl Hreq) as (-> & after & -> & Hnext).
      split; [done|]. by exists after.
  - destruct t1 as [|e1 [|e2 t1]]; simplify_eq/=. congruence.
Qed.

(** When the second pass returns an error, its last call is a failed [Boot]
    on a provider that is not optional, and the error is that one,
    wrapped. *)
Lemma BootTrace_returned_error app L t r werr :
  BootTrace app L t r → r = Some werr →
  ∃ t0 later err0,
    t = t0 ++ [failed (CallBoot later app) err0] ∧
    isOptional later = false ∧ werr = failedTo "boot" later err0.
Proof.
  induction 1 as [|prov L t r H IH|prov L t r err' Hopt H IH|prov L err' Hopt];
    intros Hr; try discriminate.
  - destruct (IH Hr) as (t0 & q & err0 & -> & Hq & ->).
    by exists (completed (CallBoot prov app) :: t0), q, err0.
  - destruct (IH Hr) as (t0 & q & err0 & -> & Hq & ->).
    by exists (failed (CallBoot prov app) err' :: t0), q, err0.
  - injection Hr as <-. by exists [], prov, err'.
Qed.

Lemma last_after_middle t0 (x : Event World App) t1 f t2 :
  t0 ++ [x] = t1 ++ f :: t2 →
  (t2 = [] ∧ x = f) ∨ ∃ t3, t2 = t3 ++ [x].
Proof.
  destruct t2 as [|y t2 _] using rev_ind; intros Heq.
  - left. change (t1 ++ [f]) with (t1 ++ [f]) in Heq.
    apply app_inj_tail in Heq as [_ ->]. done.
  - right. exists t2.
    rewrite app_comm_cons, app_assoc in Heq.
    apply app_inj_tail in Heq as [_ ->]. done.
Qed.

Lemma BootTrace_receivers app L t r :
  BootTrace app L t r → Forall (λ e, receiver (call e) ∈ L) t.
Proof.
  induction 1; repeat constructor; simpl; try (by left);
    (eapply Forall_impl; [done|]); intros e He; by right.
Qed.

(** *** The [Configure] calls *)

Lemma RegisterTrace_configure p app L t r prov cfg res :
  RegisterTrace p app L t r →
  {| call := CallConfigure prov cfg; returned := res |} ∈ t →
  prov ∈ L ∧
  ∃ configure stored,
    Configure prov = Some configure ∧
    GetProviderConfig p (Name prov) = Some stored ∧ cfg = Some stored.
Proof.
  induction 1 as [|prov' L t r H IH|prov' L configure stored err' Hc Hg|prov' L err'];
    intros Hin.
  - by apply elem_of_nil in Hin.
  - apply elem_of_app in Hin as [Hin|Hin].
    + destruct (configureCalls_cases p prov')
        as [[Hcc _]|(configure & stored & Hc & Hg & Hcc)]; rewrite Hcc in Hin;
        csimpl in Hin; [by apply elem_of_nil in Hin|].
      apply list_elem_of_singleton in Hin.
      unfold completed, failed in Hin. simplify_eq/=.
      split; [left|eauto].
    + apply elem_of_cons in Hin as [Hin|Hin]; [done|].
      destruct (IH Hin) as [? ?]. split; [by right|done].
  - apply list_elem_of_singleton in Hin.
    unfold completed, failed in Hin. simplify_eq/=. split; [left|eauto].
  - apply elem_of_app in Hin as [Hin|Hin].
    + destruct (configureCalls_cases p prov')
        as [[Hcc _]|(configure & stored & Hc & Hg & Hcc)]; rewrite Hcc in Hin;
        csimpl in Hin; [by apply elem_of_nil in Hin|].
      apply list_elem_of_singleton in Hin.
      unfold completed, failed in Hin. simplify_eq/=.
      split; [left|eauto].
    + by apply list_elem_of_singleton in Hin.
Qed.

(** A [Register] call on a configurable provider with a stored non-nil
    configuration comes right after a completed [Configure] call with that
    configuration. *)
Lemma RegisterTrace_configure_before p app L t r t1 prov a res t2
    configure stored :
  RegisterTrace p app L t r →
  t = t1 ++ {| call := CallRegister prov a; returned := res |} :: t2 →
  Configure prov = Some configure →
  GetProviderConfig p (Name prov) = Some stored →
  ∃ t0, t1 = t0 ++ [completed (CallConfigure prov (Some stored))].
Proof.
  intros H. revert t1.
  induction H as [|prov' L t r H IH|prov' L configure' stored' err' Hc Hg|prov' L err'];
    intros t1 Ht Hconf Hget.
  - by destruct t1.
  - destruct (configureCalls_cases p prov')
      as [[Hcc Hno]|(configure' & stored' & Hc & Hg & Hcc)]; rewrite Hcc in Ht;
      csimpl in Ht.
    + destruct t1 as [|e1 t1]; simplify_events.
      { destruct Hno; congruence. }
      destruct (IH t1 eq_refl Hconf Hget) as [t0 ->].
      by exists (completed (CallRegister prov' app) :: t0).
    + destruct t1 as [|e1 [|e2 t1]]; simplify_events.
      { by exists []. }
      destruct (IH t1 eq_refl Hconf Hget) as [t0 ->].
      by eexists (_ :: _ :: t0).
  - destruct t1 as [|e1 [|e2 t1]]; simplify_events.
  - destruct (configureCalls_cases p prov')
      as [[Hcc Hno]|(configure' & stored' & Hc & Hg & Hcc)]; rewrite Hcc in Ht;
      csimpl in Ht.
    + destruct t1 as [|e1 [|e2 t1]]; simplify_events.
      destruct Hno; congruence.
    + destruct t1 as [|e1 [|e2 [|e3 t1]]]; simplify_events.
      by exists [].
Qed.

Lemma RegisterTrace_registers_all p app L t r prov :
  RegisterTrace p app L t r → r = None → prov ∈ L →
  ∃ t1 t2, t = t1 ++ completed (CallRegister prov app) :: t2.
Proof.
  induction 1 as [|prov' L t r H IH| |]; intros Hr Hin; try discriminate.
  - by apply elem_of_nil in Hin.
  - apply elem_of_cons in Hin as [->|Hin].
    + by eexists _, _.
    + destruct (IH Hr Hin) as (t1 & t2 & Heq). rewrite Heq.
      exists ((completed <$> configureCalls p prov')
                ++ completed (CallRegister prov' app) :: t1), t2.
      by rewrite <- app_assoc.
Qed.

(** *** Whole loads *)

Lemma split_at_boot tR tB t1 e t2 :
  Forall (λ e, ¬ isBootCall (call e)) tR → isBootCall (call e) →
  tR ++ tB = t1 ++ e :: t2 →
  ∃ t1', t1 = tR ++ t1' ∧ tB = t1' ++ e :: t2.
Proof.
  intros HR He. revert t1.
  induction HR as [|x tR Hx _ IH]; intros t1 Heq; simpl in *.
  { by exists t1. }
  destruct t1 as [|y t1]; simplify_eq/=; [done|].
  destruct (IH t1) as (t1' & -> & ->); [done|]. by exists t1'.
Qed.

Lemma split_before_boot tR tB t1 e t2 :
  Forall (λ e, isBootCall (call e)) tB → ¬ isBootCall (call e) →
  tR ++ tB = t1 ++ e :: t2 →
  ∃ t2', tR = t1 ++ e :: t2'.
Proof.
  intros HB He. revert t1.
  induction tR as [|x tR IH]; intros t1 Heq; simpl in *.
  { subst tB. apply Forall_app in HB as [_ HB].
    apply Forall_cons in HB as [HB _]. done. }
  destruct t1 as [|y t1]; simplify_eq/=.
  { by exists tR. }
  destruct (IH t1) as (t2' & ->); [done|]. by exists t2'.
Qed.

Lemma LoadTrace_receivers p app L t r :
  LoadTrace p app L t r → Forall (λ e, receiver (call e) ∈ L) t.
Proof.
  destruct 1 as [t1 err H1|t1 t2 r H1 H2].
  - by eapply RegisterTrace_receivers.
  - apply Forall_app.
    eauto using RegisterTrace_receivers, BootTrace_receivers.
Qed.

End traces.

(** ** Priority resolution *)

Section priorities.

Context {World App : Type}.
Implicit Types (prov : ServiceProvider World App).
Implicit Types (p : Provider).

Lemma GetProviderConfig_Some p name stored :
  GetProviderConfig p name = Some stored ↔
  ProviderConfigs p !! name = Some (Some stored).
Proof.
  unfold GetProviderConfig.
  destruct (ProviderConfigs p !! name) as [[?|]|]; simpl;
    intuition congruence.
Qed.

Lemma GetProviderConfig_None p name :
  GetProviderConfig p name = None ↔
  ProviderConfigs p !! name = None ∨ ProviderConfigs p !! name = Some None.
Proof.
  unfold GetProviderConfig.
  destruct (ProviderConfigs p !! name) as [[?|]|]; simpl;
    intuition congruence.
Qed.

(** C3.  A stored configuration with an [int] under ["priority"] decides
    the priority, whatever the provider declares; with no stored
    configuration (no entry, or the nil map) the provider's declared
    priority is used, and 100 when it declares none. *)
Theorem resolvePriority_precedence p prov :
  (∀ cfg n,
      ProviderConfigs p !! Name prov = Some (Some cfg) →
      cfg !! "priority" = Some (VInt n) →
      resolvePriority p prov = n) ∧
  (∀ pp,
      ProviderConfigs p !! Name prov = None
      ∨ ProviderConfigs p !! Name prov = Some None →
      Priority prov = Some pp →
      resolvePriority p prov = pp) ∧
  (ProviderConfigs p !! Name prov = None
   ∨ ProviderConfigs p !! Name prov = Some None →
   Priority prov = None →
   resolvePriority p prov = 100).
Proof.
  unfold resolvePriority. split_and!.
  - intros cfg n Hcfg%GetProviderConfig_Some Hn.
    rewrite Hcfg. unfold index. by rewrite Hn.
  - intros pp Hcfg%GetProviderConfig_None Hpp. by rewrite Hcfg, Hpp.
  - intros Hcfg%GetProviderConfig_None Hpp. by rewrite Hcfg, Hpp.
Qed.

(** C4, as the code has it.  When the stored configuration has no [int]
    under ["priority"], a provider that declares a priority gets the
    declared one. *)
Theorem resolvePriority_config_without_priority p prov cfg pp :
  ProviderConfigs p !! Name prov = Some (Some cfg) →
  (∀ n, cfg !! "priority" ≠ Some (VInt n)) →
  Priority prov = Some pp →
  resolvePriority p prov = pp.
Proof.
  intros Hcfg%GetProviderConfig_Some Hno Hpp.
  unfold resolvePriority. rewrite Hcfg, Hpp. unfold index.
  destruct (cfg !! "priority") as [[]|] eqn:Hk; simpl; try done.
  by destruct (Hno n).
Qed.

End priorities.

(** The test [TestSortProvidersByPriorityWithConfig]: declared 50,
    configured 80. *)
Lemma resolvePriority_precedence_witness :
  resolvePriority
    (SetProviderConfig Example.fresh "second" (Some {["priority" := VInt 80]}))
    Example.second = 80
  ∧ resolvePriority Example.fresh Example.second = 50
  ∧ resolvePriority Example.fresh Example.plain = 100.
Proof.
  split_and!.
  - apply (proj1 (resolvePriority_precedence
                    (SetProviderConfig Example.fresh "second"
                       (Some {["priority" := VInt 80]}))
                    Example.second) {["priority" := VInt 80]} 80);
      reflexivity.
  - apply (proj1 (proj2 (resolvePriority_precedence Example.fresh
                           Example.second)) 50); [left|]; reflexivity.
  - apply (proj2 (proj2 (resolvePriority_precedence Example.fresh
                           Example.plain))); [left|]; reflexivity.
Defined.

(** A provider declaring 50 whose stored configuration is
    [{"key": "value"}] is given 50, not 100. *)
Lemma resolvePriority_config_without_priority_counterexample :
  let p := SetProviderConfig Example.fresh "second"
             (Some {["key" := VString "value"]}) in
  Priority Example.second = Some 50 ∧
  ProviderConfigs p !! Name Example.second
    = Some (Some {["key" := VString "value"]}) ∧
  ({["key" := VString "value"]} : gmap string value) !! "priority" = None ∧
  resolvePriority p Example.second = 50 ∧
  resolvePriority p Example.second ≠ 100.
Proof. vm_compute. split_and!; congruence. Qed.

Lemma resolvePriority_config_without_priority_witness :
  resolvePriority
    (SetProviderConfig Example.fresh "second" (Some {["key" := VString "value"]}))
    Example.second = 50.
Proof.
  apply (resolvePriority_config_without_priority _ _
           {["key" := VString "value"]} 50).
  - reflexivity.
  - intros n. vm_compute. congruence.
  - reflexivity.
Defined.

(** ** The registry *)

Section registry.

Context {World App : Type}.
Implicit Types (provider : ServiceProvider World App).
Implicit Types (m : Machine World App).

Lemma duplicateCheck_Some provider providers :
  is_Some (duplicateCheck provider providers) ↔
  ∃ q, q ∈ providers ∧ Name q = Name provider.
Proof.
  induction providers as [|q rest IH]; simpl.
  - split; [by intros [? ?]|]. intros (q & Hq & _). by apply elem_of_nil in Hq.
  - destruct (decide (Name q = Name provider)) as [Heq|Hne].
    + split; [|by eauto]. intros _. exists q. split; [left|done].
    + rewrite IH. split.
      * intros (q' & Hq' & ?). exists q'. split; [by right|done].
      * intros (q' & [->|Hq']%elem_of_cons & ?); [done|eauto].
Qed.

(** C8.  [RegisterGlobalProvider] panics exactly when the name is already
    registered, and then leaves the machine as it was; otherwise it returns
    after appending the provider to the registry, which keeps its order,
    grows by one, and keeps its names distinct. *)
Theorem RegisterGlobalProvider_duplicate provider m :
  ((∃ pn, (RegisterGlobalProvider provider m).2 = Panicked pn) ↔
   ∃ q, q ∈ globalProviders m ∧ Name q = Name provider) ∧
  (∀ pn, (RegisterGlobalProvider provider m).2 = Panicked pn →
         (RegisterGlobalProvider provider m).1 = m) ∧
  ((¬ ∃ q, q ∈ globalProviders m ∧ Name q = Name provider) →
   (RegisterGlobalProvider provider m).2 = Returned () ∧
   globalProviders (RegisterGlobalProvider provider m).1
     = globalProviders m ++ [provider] ∧
   length (GetRegisteredProviders (RegisterGlobalProvider provider m).1)
     = S (length (GetRegisteredProviders m)) ∧
   loader (RegisterGlobalProvider provider m).1 = loader m ∧
   world (RegisterGlobalProvider provider m).1 = world m ∧
   calls (RegisterGlobalProvider provider m).1 = calls m ∧
   (NoDup (Name <$> globalProviders m) →
    NoDup (Name <$> globalProviders (RegisterGlobalProvider provider m).1))).
Proof.
  pose proof (duplicateCheck_Some provider (globalProviders m)) as Hdup.
  unfold RegisterGlobalProvider, GetRegisteredProviders.
  destruct (duplicateCheck provider (globalProviders m)) as [pn|]; simpl.
  - assert (∃ q, q ∈ globalProviders m ∧ Name q = Name provider) as Hq
      by (apply Hdup; eauto).
    split_and!; [split; eauto|done|tauto].
  - assert (¬ ∃ q, q ∈ globalProviders m ∧ Name q = Name provider) as Hq.
    { intros Hq%Hdup. by destruct Hq. }
    split_and!.
    + split; [by intros [? ?]|tauto].
    + done.
    + intros _. rewrite !firstn_all, length_app. simpl.
      split_and!; [done|done|lia|done|done|done|].
      intros Hnd. rewrite fmap_app. apply NoDup_app. split_and!; [done| |].
      * intros name (q & -> & Hin)%list_elem_of_fmap Hname.
        apply list_elem_of_singleton in Hname. eauto.
      * apply NoDup_singleton.
Qed.

End registry.

(** [TestRegisterGlobalProviderDuplicate] and [TestRegisterGlobalProvider]. *)
Lemma RegisterGlobalProvider_duplicate_witness :
  (RegisterGlobalProvider Example.second
     (Example.start [Example.first] Example.fresh)).2 = Returned () ∧
  globalProviders
    (RegisterGlobalProvider Example.second
       (Example.start [Example.first] Example.fresh)).1
    = [Example.first; Example.second] ∧
  (∃ pn, (RegisterGlobalProvider (Example.noPriorityProvider "first")
            (Example.start [Example.first] Example.fresh)).2 = Panicked pn).
Proof.
  pose proof (RegisterGlobalProvider_duplicate Example.second
                (Example.start [Example.first] Example.fresh))
    as (_ & _ & Hfresh).
  pose proof (RegisterGlobalProvider_duplicate
                (Example.noPriorityProvider "first")
                (Example.start [Example.first] Example.fresh))
    as (Hdup & _ & _).
  split_and!.
  - apply Hfresh. intros (q & Hq & Hname).
    apply list_elem_of_singleton in Hq as ->. vm_compute in Hname. congruence.
  - apply Hfresh. intros (q & Hq & Hname).
    apply list_elem_of_singleton in Hq as ->. vm_compute in Hname. congruence.
  - apply Hdup. exists Example.first. split; [left|reflexivity].
Defined.

(** ** Loading *)

Section loading.

Context {World App : Type}.
Implicit Types (prov : ServiceProvider World App).
Implicit Types (m : Machine World App).
Implicit Types (e : Event World App).
Implicit Types (t : list (Event World App)).

Lemma IsProviderEnabled_false (p : Provider) name :
  IsProviderEnabled p name = false ↔ EnabledProviders p !! name = Some false.
Proof.
  unfold IsProviderEnabled.
  destruct (EnabledProviders p !! name) as [[]|]; intuition congruence.
Qed.

(** C1.  A load that returns nil made its calls in two blocks.  The first
    holds no [Boot] call, every call in it returned nil, and its [Register]
    calls are those of the enabled providers, each with [app], in ascending
    order of resolved priority.  The second is the [Boot] calls of the same
    providers in the same order. *)
Theorem LoadProviders_two_phases app m :
  (LoadProviders app m).2 = Returned None →
  ∃ order t1 t2,
    loadLog app m = t1 ++ t2 ∧
    order ≡ₚ enabledProviders (loader m) (globalProviders m) ∧
    ascending (resolvePriority (loader m)) order ∧
    Forall (λ e, ¬ isBootCall (call e) ∧ returned e = None) t1 ∧
    registerCalls t1 = (λ prov, CallRegister prov app) <$> order ∧
    call <$> t2 = (λ prov, CallBoot prov app) <$> order.
Proof.
  destruct (LoadProviders_run app m)
    as (sorted & r & Hsort & Hst & Hres & _ & _ & Hlog).
  rewrite Hres. intros [= ->].
  pose proof (stablySorted_filter _
                (λ prov, IsProviderEnabled (loader m) (Name prov) = true)
                _ _ Hst) as (Hperm & Hasc & _).
  exists (enabledProviders (loader m) sorted).
  inversion Hlog as [|t1 t2 r' H1 H2 Heq]; subst.
  exists t1, t2. split_and!; [done..| | |].
  - destruct (RegisterTrace_done_all _ _ _ _ _ H1 eq_refl) as [Hok _].
    pose proof (RegisterTrace_no_boot _ _ _ _ _ H1) as Hnb.
    rewrite Forall_forall in Hok, Hnb. apply Forall_forall. auto.
  - by destruct (RegisterTrace_done_all _ _ _ _ _ H1 eq_refl).
  - by eapply BootTrace_done_all.
Qed.

(** C2.  Sorting the enabled providers gives the same list as sorting the
    whole registry and dropping the disabled ones; that list is the enabled
    subset, ascending by resolved priority, equal priorities in
    registration order.  The [Register] calls of a load follow it: they
    are a prefix of it, and all of it when the load returns nil. *)
Theorem LoadProviders_register_order app m :
  ∃ order,
    sortProvidersByPriority (loader m)
      (enabledProviders (loader m) (globalProviders m)) = Some order ∧
    enabledProviders (loader m)
      <$> sortProvidersByPriority (loader m) (globalProviders m) = Some order ∧
    stablySorted (resolvePriority (loader m))
      (enabledProviders (loader m) (globalProviders m)) order ∧
    registerCalls (loadLog app m)
      `prefix_of` (λ prov, CallRegister prov app) <$> order ∧
    ((LoadProviders app m).2 = Returned None →
     registerCalls (loadLog app m) = (λ prov, CallRegister prov app) <$> order).
Proof.
  destruct (LoadProviders_run app m)
    as (sorted & r & Hsort & Hst & Hres & _ & _ & Hlog).
  pose proof (stablySorted_filter _
                (λ prov, IsProviderEnabled (loader m) (Name prov) = true)
                _ _ Hst) as Hst'.
  destruct (sortProvidersByPriority_stablySorted (loader m)
              (enabledProviders (loader m) (globalProviders m)))
    as (order & Hsort' & Hst'').
  assert (order = enabledProviders (loader m) sorted) as ->
    by (by eapply stablySorted_unique).
  exists (enabledProviders (loader m) sorted).
  split_and!; [done|by rewrite Hsort|done| |].
  - inversion Hlog as [t1 err H1|t1 t2 r' H1 H2 Heq]; subst.
    + by eapply RegisterTrace_prefix.
    + rewrite registerCalls_app, (BootTrace_no_register _ _ _ _ H2), app_nil_r.
      by eapply RegisterTrace_prefix.
  - rewrite Hres. intros [= ->].
    inversion Hlog as [|t1 t2 r' H1 H2 Heq]; subst.
    rewrite registerCalls_app, (BootTrace_no_register _ _ _ _ H2), app_nil_r.
    by destruct (RegisterTrace_done_all _ _ _ _ _ H1 eq_refl).
Qed.

(** C5.  No call of a load has a receiver whose name is stored as
    disabled. *)
Theorem LoadProviders_skips_disabled app m prov e :
  EnabledProviders (loader m) !! Name prov = Some false →
  e ∈ loadLog app m →
  Name (receiver (call e)) ≠ Name prov.
Proof.
  intros Hoff%IsProviderEnabled_false Hin Hname.
  destruct (LoadProviders_run app m)
    as (sorted & r & _ & _ & _ & _ & _ & Hlog).
  apply LoadTrace_receivers in Hlog. rewrite Forall_forall in Hlog.
  apply Hlog in Hin. apply list_elem_of_filter in Hin as [Hen _].
  congruence.
Qed.

Lemma isOptional_true prov : isOptional prov = true ↔ IsOptional prov = Some true.
Proof. unfold isOptional. destruct (IsOptional prov) as [[]|]; intuition congruence. Qed.

Lemma isOptional_false prov : isOptional prov = false ↔ IsOptional prov ≠ Some true.
Proof. unfold isOptional. destruct (IsOptional prov) as [[]|]; intuition congruence. Qed.

(** C6.  Take a [Boot] call of a load that returned an error.  When the
    provider is optional, the providers registered by the load are those
    booted so far, this one, and the ones [after] it: if none is left the
    load ends here and returns nil, otherwise the next call is [Boot] on the
    first of them.  The load does not return an error for this failure: it
    returns nil, or the wrapped error of a later failed [Boot] on a provider
    that is not optional; so it returns nil when all the later calls
    returned nil.  When the provider is not optional, the call is the last
    one and the load returns the error
    [failed to boot provider '<name>': <message>], which wraps the
    provider's error. *)
Theorem LoadProviders_boot_failure app m t1 prov a err t2 :
  loadLog app m = t1 ++ failed (CallBoot prov a) err :: t2 →
  (IsOptional prov = Some true →
   (∃ after,
       registered (loadLog app m) = booted t1 ++ prov :: after ∧
       match after with
       | [] => t2 = [] ∧ (LoadProviders app m).2 = Returned None
       | next :: _ =>
           ∃ res t3, t2 = {| call := CallBoot next app; returned := res |} :: t3
       end) ∧
   ((LoadProviders app m).2 = Returned None ∨
    ∃ t3 later err',
      t2 = t3 ++ [failed (CallBoot later app) err'] ∧
      IsOptional later ≠ Some true ∧
      (LoadProviders app m).2
      = Returned (Some (Errorf ("failed to boot provider '" +:+ Name later
                                  +:+ "': " +:+ Error err') err'))) ∧
   (Forall (λ e, returned e = None) t2 →
    (LoadProviders app m).2 = Returned None)) ∧
  (IsOptional prov ≠ Some true →
   t2 = [] ∧
   (LoadProviders app m).2
   = Returned (Some (Errorf ("failed to boot provider '" +:+ Name prov
                               +:+ "': " +:+ Error err) err)) ∧
   ∀ werr, (LoadProviders app m).2 = Returned (Some werr) →
         Unwrap werr = Some err ∧
         Error werr
         = "failed to boot provider '" +:+ Name prov +:+ "': " +:+ Error err).
Proof.
  intros Hdec.
  destruct (LoadProviders_run app m)
    as (sorted & r & _ & _ & Hres & _ & _ & Hlog).
  rewrite Hres.
  inversion Hlog as [tR err' H1 HtR|tR tB r' H1 H2 Heq]; subst.
  { apply RegisterTrace_no_boot in H1. rewrite Forall_forall in H1.
    destruct (H1 (failed (CallBoot prov a) err)); [|done].
    rewrite Hdec. apply elem_of_app. right. left. }
  rewrite Hdec in Heq.
  pose proof (RegisterTrace_no_boot _ _ _ _ _ H1) as Hnb.
  destruct (split_at_boot tR tB t1 (failed (CallBoot prov a) err) t2 Hnb I Heq)
    as (t1' & -> & HtB).
  split.
  - intros Hopt%isOptional_true.
    assert (r = None ∨
            ∃ t3 later err',
              t2 = t3 ++ [failed (CallBoot later app) err'] ∧
              IsOptional later ≠ Some true ∧
              r = Some (Errorf ("failed to boot provider '" +:+ Name later
                                  +:+ "': " +:+ Error err') err')) as Hlater.
    { destruct r as [werr|]; [right|by left].
      destruct (BootTrace_returned_error _ _ _ _ _ H2 eq_refl)
        as (t0 & later & err0 & Ht0 & Hreq & ->).
      rewrite HtB in Ht0. symmetry in Ht0.
      apply last_after_middle in Ht0 as [[_ Hsame]|[t3 ->]].
      - unfold failed in Hsame. injection Hsame as <- _ _. congruence.
      - exists t3, later, err0. split_and!; [done| |done].
        by apply isOptional_false. }
    split_and!.
    + destruct (BootTrace_failure_optional _ _ _ _ _ _ _ _ _ H2 HtB Hopt)
        as (-> & after & HL & Hnext).
      exists after. split.
      * unfold registered, booted.
        rewrite registerCalls_app, bootCalls_app.
        rewrite (BootTrace_no_register _ _ _ _ H2), app_nil_r.
        rewrite (bootCalls_none tR Hnb). simpl.
        destruct (RegisterTrace_done_all _ _ _ _ _ H1 eq_refl) as [_ ->].
        rewrite receiver_register_calls, HL. f_equal. f_equal.
        rewrite bootCalls_only_boot; [done|].
        apply BootTrace_only_boot in H2. rewrite HtB in H2.
        by apply Forall_app in H2 as [? _].
      * destruct after; [|done]. destruct Hnext as [-> ->]. done.
    + destruct Hlater as [->|(t3 & later & err' & Ht & Hl & ->)]; [by left|].
      right. by exists t3, later, err'.
    + intros Hok.
      destruct Hlater as [->|(t3 & later & err' & -> & _ & _)]; [done|].
      apply Forall_app in Hok as [_ Hok].
      apply Forall_cons in Hok as [Hok _]. done.
  - intros Hreq%isOptional_false.
    destruct (BootTrace_failure_required _ _ _ _ _ _ _ _ _ H2 HtB Hreq)
      as [-> ->].
    split_and!; [done|done|]. by intros werr [= <-].
Qed.

(** C7.  A [Configure] or [Register] call of a load that returned an
    error is the last call of the load, no [Boot] call was made, and the
    load returns the error
    [failed to configure provider '<name>': <message>] (or [register]),
    which wraps the provider's error. *)
Theorem LoadProviders_register_failure app m t1 e t2 err :
  loadLog app m = t1 ++ e :: t2 →
  returned e = Some err →
  ¬ isBootCall (call e) →
  t2 = [] ∧
  bootCalls (loadLog app m) = [] ∧
  match call e with
  | CallConfigure prov _ =>
      (LoadProviders app m).2
      = Returned (Some (Errorf ("failed to configure provider '" +:+ Name prov
                                  +:+ "': " +:+ Error err) err))
  | CallRegister prov _ =>
      (LoadProviders app m).2
      = Returned (Some (Errorf ("failed to register provider '" +:+ Name prov
                                  +:+ "': " +:+ Error err) err))
  | CallBoot _ _ => False
  end ∧
  ∃ werr,
    (LoadProviders app m).2 = Returned (Some werr) ∧
    Unwrap werr = Some err ∧
    Error werr
    = "failed to "
        +:+ match call e with
            | CallConfigure _ _ => "configure"
            | _ => "register"
            end
        +:+ " provider '" +:+ Name (receiver (call e)) +:+ "': " +:+ Error err.
Proof.
  intros Hdec Herr Hnb.
  destruct (LoadProviders_run app m)
    as (sorted & r & _ & _ & Hres & _ & _ & Hlog).
  rewrite Hres.
  inversion Hlog as [tR err' H1 HtR|tR tB r' H1 H2 Heq]; subst.
  - destruct (RegisterTrace_failure _ _ _ _ _ _ _ _ _ H1 Hdec Herr)
      as [-> Hcall].
    split_and!; [done| | |].
    + apply bootCalls_none. by eapply RegisterTrace_no_boot.
    + destruct (call e); [|by f_equal|done].
      by f_equal.
    + destruct (call e) as [prov cfg|prov a|]; [| |done].
      * injection Hcall as ->. by eexists.
      * injection Hcall as ->. by eexists.
  - destruct (RegisterTrace_done_all _ _ _ _ _ H1 eq_refl) as [Hok _].
    apply BootTrace_only_boot in H2.
    rewrite Forall_forall in Hok, H2.
    assert (e ∈ tR ++ tB) as [Hin|Hin]%elem_of_app.
    { rewrite Heq, Hdec. apply elem_of_app. right. left. }
    + apply Hok in Hin. congruence.
    + apply H2 in Hin. done.
Qed.

(** C10.  A [Configure] call of a load is made on an enabled provider
    that implements [Configure], with the configuration stored for its
    name, which is not the nil map.  A [Register] call on a provider that
    implements [Configure] comes right after a completed [Configure] call
    with the stored map when that is not nil (the empty map included); when
    the name has no entry or the nil map, the load makes no [Configure] call
    on the provider at all.  A load that returns nil registered every
    enabled provider. *)
Theorem LoadProviders_configure app m :
  (∀ prov cfg res,
      {| call := CallConfigure prov cfg; returned := res |} ∈ loadLog app m →
      is_Some (Configure prov) ∧
      IsProviderEnabled (loader m) (Name prov) = true ∧
      ∃ stored,
        cfg = Some stored ∧
        ProviderConfigs (loader m) !! Name prov = Some (Some stored)) ∧
  (∀ t1 prov a res t2,
      loadLog app m
        = t1 ++ {| call := CallRegister prov a; returned := res |} :: t2 →
      is_Some (Configure prov) →
      match ProviderConfigs (loader m) !! Name prov with
      | Some (Some stored) =>
          ∃ t0, t1 = t0 ++ [completed (CallConfigure prov (Some stored))]
      | Some None | None =>
          ∀ cfg res',
            {| call := CallConfigure prov cfg; returned := res' |}
              ∉ loadLog app m
      end) ∧
  ((LoadProviders app m).2 = Returned None →
   ∀ prov,
     prov ∈ globalProviders m →
     IsProviderEnabled (loader m) (Name prov) = true →
     ∃ t1 t2, loadLog app m = t1 ++ completed (CallRegister prov app) :: t2).
Proof.
  destruct (LoadProviders_run app m)
    as (sorted & r & _ & (Hperm & _ & _) & Hres & _ & _ & Hlog).
  assert (∀ prov cfg res,
             {| call := CallConfigure prov cfg; returned := res |}
               ∈ loadLog app m →
             prov ∈ enabledProviders (loader m) sorted ∧
             ∃ configure stored,
               Configure prov = Some configure ∧
               GetProviderConfig (loader m) (Name prov) = Some stored ∧
               cfg = Some stored) as Hconf.
  { intros prov cfg res Hin.
    inversion Hlog as [tR err' H1 HtR|tR tB r' H1 H2 Heq]; subst.
    - by eapply RegisterTrace_configure.
    - rewrite <- Heq in Hin. apply elem_of_app in Hin as [Hin|Hin].
      + by eapply RegisterTrace_configure.
      + apply BootTrace_only_boot in H2. rewrite Forall_forall in H2.
        by apply H2 in Hin. }
  split_and!.
  - intros prov cfg res Hin.
    destruct (Hconf _ _ _ Hin) as (HL & configure & stored & Hc & Hg & ->).
    apply list_elem_of_filter in HL as [Hen _].
    split_and!; [by eexists|done|].
    exists stored. by rewrite <- GetProviderConfig_Some.
  - intros t1 prov a res t2 Hdec [configure Hc].
    destruct (ProviderConfigs (loader m) !! Name prov) as [[stored|]|] eqn:Hp.
    + apply GetProviderConfig_Some in Hp.
      inversion Hlog as [tR err' H1 HtR|tR tB r' H1 H2 Heq]; subst.
      * by eapply RegisterTrace_configure_before.
      * rewrite Hdec in Heq.
        apply BootTrace_only_boot in H2.
        destruct (split_before_boot tR tB t1
                    {| call := CallRegister prov a; returned := res |} t2
                    H2 (λ x, x) Heq) as (t2' & HtR).
        by eapply RegisterTrace_configure_before.
    + intros cfg res' Hin.
      destruct (Hconf _ _ _ Hin) as (_ & _ & stored & _ & Hg & _).
      apply GetProviderConfig_Some in Hg. congruence.
    + intros cfg res' Hin.
      destruct (Hconf _ _ _ Hin) as (_ & _ & stored & _ & Hg & _).
      apply GetProviderConfig_Some in Hg. congruence.
  - rewrite Hres. intros [= ->] prov Hin Hen.
    assert (prov ∈ enabledProviders (loader m) sorted) as HL.
    { apply list_elem_of_filter. split; [done|]. by rewrite Hperm. }
    inversion Hlog as [|tR tB r' H1 H2 Heq]; subst.
    destruct (RegisterTrace_registers_all _ _ _ _ _ _ H1 eq_refl HL)
      as (t1 & t2 & ->).
    exists t1, (t2 ++ tB). by rewrite <- app_assoc.
Qed.

End loading.

(** ** The theorems on the test suite's providers *)

(** [TestLoadProvidersExecutionOrder]: registered as third, first, second;
    the load returns nil. *)
Lemma LoadProviders_two_phases_witness :
  (LoadProviders ()
     (Example.start [Example.third; Example.first; Example.second]
        Example.fresh)).2 = Returned None ∧
  ∃ order t1 t2,
    loadLog () (Example.start [Example.third; Example.first; Example.second]
                  Example.fresh) = t1 ++ t2 ∧
    order ≡ₚ enabledProviders Example.fresh
               [Example.third; Example.first; Example.second] ∧
    ascending (resolvePriority Example.fresh) order ∧
    Forall (λ e, ¬ isBootCall (call e) ∧ returned e = None) t1 ∧
    registerCalls t1 = (λ prov, CallRegister prov ()) <$> order ∧
    call <$> t2 = (λ prov, CallBoot prov ()) <$> order.
Proof.
  split; [reflexivity|].
  apply (LoadProviders_two_phases ()
           (Example.start [Example.third; Example.first; Example.second]
              Example.fresh)).
  reflexivity.
Defined.

Lemma LoadProviders_register_order_witness :
  ∃ order,
    sortProvidersByPriority Example.fresh
      (enabledProviders Example.fresh
         [Example.third; Example.first; Example.second]) = Some order ∧
    registerCalls
      (loadLog () (Example.start [Example.third; Example.first; Example.second]
                     Example.fresh))
    = (λ prov, CallRegister prov ()) <$> order.
Proof.
  destruct (LoadProviders_register_order ()
              (Example.start [Example.third; Example.first; Example.second]
                 Example.fresh)) as (order & Hsort & _ & _ & _ & Hall).
  exists order. split; [exact Hsort|]. apply Hall. reflexivity.
Defined.

(** [TestLoadProvidersDisabled]. *)
Lemma LoadProviders_skips_disabled_witness :
  EnabledProviders (SetProviderEnabled Example.fresh "second" false)
    !! Name Example.second = Some false ∧
  completed (CallRegister Example.first ())
    ∈ loadLog () (Example.start [Example.first; Example.second]
                    (SetProviderEnabled Example.fresh "second" false)) ∧
  Name (receiver (call (completed (CallRegister Example.first ()))))
    ≠ Name Example.second.
Proof.
  assert (completed (CallRegister Example.first ())
            ∈ loadLog () (Example.start [Example.first; Example.second]
                            (SetProviderEnabled Example.fresh "second" false)))
    as Hin by (vm_compute; left).
  split_and!; [reflexivity|exact Hin|].
  apply (LoadProviders_skips_disabled ()
           (Example.start [Example.first; Example.second]
              (SetProviderEnabled Example.fresh "second" false))
           Example.second _ eq_refl Hin).
Defined.

(** [TestLoadProvidersOptionalBootError] and [TestLoadProvidersBootError],
    each with a second provider behind the failing one. *)
Lemma LoadProviders_boot_failure_witness :
  (∃ after,
      registered (loadLog () (Example.start [Example.flaky; Example.second]
                                Example.fresh))
      = booted [completed (CallRegister Example.flaky ());
                completed (CallRegister Example.second ())]
          ++ Example.flaky :: after ∧
      match after with
      | [] => [completed (CallBoot Example.second ())] = [] ∧
              (LoadProviders () (Example.start [Example.flaky; Example.second]
                                   Example.fresh)).2 = Returned None
      | next :: _ =>
          ∃ res t3, [completed (CallBoot Example.second ())]
                    = {| call := CallBoot next (); returned := res |} :: t3
      end) ∧
  (LoadProviders () (Example.start [Example.flaky; Example.second]
                       Example.fresh)).2 = Returned None ∧
  (LoadProviders () (Example.start [Example.broken; Example.second]
                       Example.fresh)).2
  = Returned (Some (Errorf "failed to boot provider 'broken': boot failed"
                      (New "boot failed"))).
Proof.
  pose proof (LoadProviders_boot_failure ()
                (Example.start [Example.flaky; Example.second] Example.fresh)
                [completed (CallRegister Example.flaky ());
                 completed (CallRegister Example.second ())]
                Example.flaky () (New "boot failed")
                [completed (CallBoot Example.second ())] eq_refl)
    as [Hopt _].
  destruct (Hopt eq_refl) as (Hnext & _ & Hnil).
  pose proof (LoadProviders_boot_failure ()
                (Example.start [Example.broken; Example.second] Example.fresh)
                [completed (CallRegister Example.broken ());
                 completed (CallRegister Example.second ())]
                Example.broken () (New "boot failed") [] eq_refl)
    as [_ Hreq].
  split_and!.
  - exact Hnext.
  - apply Hnil. repeat constructor.
  - apply Hreq. vm_compute. congruence.
Defined.

(** [TestLoadProvidersRegisterError], between two sound providers. *)
Lemma LoadProviders_register_failure_witness :
  bootCalls (loadLog () (Example.start
                           [Example.first; Example.failing; Example.second]
                           Example.fresh)) = [] ∧
  (LoadProviders () (Example.start
                       [Example.first; Example.failing; Example.second]
                       Example.fresh)).2
  = Returned (Some (Errorf
                      "failed to register provider 'failing': register failed"
                      (New "register failed"))).
Proof.
  destruct (LoadProviders_register_failure ()
              (Example.start [Example.first; Example.failing; Example.second]
                 Example.fresh)
              [completed (CallRegister Example.first ())]
              (failed (CallRegister Example.failing ()) (New "register failed"))
              [] (New "register failed") eq_refl eq_refl (λ x, x))
    as (_ & Hboot & Hres & _).
  split; [exact Hboot|exact Hres].
Defined.

(** An empty map stored for ["first"], the nil map for ["second"], nothing
    for ["third"]: [Configure] is called on the first only, with the empty
    map, right before its [Register]. *)
Lemma LoadProviders_configure_witness :
  loadLog () (Example.start [Example.first; Example.second; Example.third]
                (SetProviderConfig
                   (SetProviderConfig Example.fresh "first" (Some ∅))
                   "second" None))
  = [completed (CallConfigure Example.first (Some ∅))]
      ++ completed (CallRegister Example.first ())
      :: [completed (CallRegister Example.second ());
          completed (CallRegister Example.third ());
          completed (CallBoot Example.first ());
          completed (CallBoot Example.second ());
          completed (CallBoot Example.third ())] ∧
  (∃ t0, [completed (CallConfigure Example.first (Some ∅))]
         = t0 ++ [completed (CallConfigure Example.first (Some ∅))]) ∧
  (∀ cfg res',
      {| call := CallConfigure Example.second cfg; returned := res' |}
        ∉ loadLog () (Example.start
                        [Example.first; Example.second; Example.third]
                        (SetProviderConfig
                           (SetProviderConfig Example.fresh "first" (Some ∅))
                           "second" None))).
Proof.
  pose proof (proj1 (proj2 (LoadProviders_configure ()
                (Example.start [Example.first; Example.second; Example.third]
                   (SetProviderConfig
                      (SetProviderConfig Example.fresh "first" (Some ∅))
                      "second" None))))) as Hreg.
  split_and!.
  - reflexivity.
  - apply (Hreg [completed (CallConfigure Example.first (Some ∅))]
             Example.first () None
             [completed (CallRegister Example.second ());
              completed (CallRegister Example.third ());
              completed (CallBoot Example.first ());
              completed (CallBoot Example.second ());
              completed (CallBoot Example.third ())]).
    + reflexivity.
    + by eexists.
  - apply (Hreg [completed (CallConfigure Example.first (Some ∅));
                 completed (CallRegister Example.first ())]
             Example.second () None
             [completed (CallRegister Example.third ());
              completed (CallBoot Example.first ());
              completed (CallBoot Example.second ());
              completed (CallBoot Example.third ())]).
    + reflexivity.
    + by eexists.
Defined.

(** ** The loader's store *)

Section store.

Context {World App : Type}.
Implicit Types (prov : ServiceProvider World App).
Implicit Types (p : Provider).

Lemma IsProviderEnabled_set p name enabled name' :
  IsProviderEnabled (SetProviderEnabled p name enabled) name'
  = (if decide (name' = name) then enabled else IsProviderEnabled p name').
Proof.
  unfold IsProviderEnabled, SetProviderEnabled. simpl.
  destruct (decide (name' = name)) as [->|Hne].
  - by rewrite lookup_insert_eq.
  - by rewrite lookup_insert_ne.
Qed.

Lemma GetProviderConfig_set p name cfg name' :
  GetProviderConfig (SetProviderConfig p name cfg) name'
  = (if decide (name' = name) then cfg else GetProviderConfig p name').
Proof.
  unfold GetProviderConfig, SetProviderConfig. simpl.
  destruct (decide (name' = name)) as [->|Hne].
  - by rewrite lookup_insert_eq.
  - by rewrite lookup_insert_ne.
Qed.



(** Storing a configuration with an [int] under ["priority"] for a name
    gives that priority to every provider of that name, whatever it
    declares and whatever was stored before, and changes the priority of
    no provider of another name. *)
Theorem SetProviderConfig_priority p name cfg n prov :
  resolvePriority
    (SetProviderConfig p name (Some (<["priority" := VInt n]> cfg))) prov
  = (if decide (Name prov = name) then n else resolvePriority p prov).
Proof.
  unfold resolvePriority. rewrite GetProviderConfig_set.
  destruct (decide (Name prov = name)) as [_|_]; [|done].
  unfold index. by rewrite lookup_insert_eq.
Qed.

(** Storing the nil map for a name gives every provider of that name the
    priority it declares, or 100. *)
Theorem SetProviderConfig_nil_priority p prov :
  resolvePriority (SetProviderConfig p (Name prov) None) prov
  = default 100 (Priority prov).
Proof.
  unfold resolvePriority. rewrite GetProviderConfig_set.
  rewrite decide_True by done. by destruct (Priority prov).
Qed.

End store.

(** ** Start-up registration *)

Section startup.

Context {World App : Type}.
Implicit Types (provider : ServiceProvider World App).
Implicit Types (providers : list (ServiceProvider World App)).
Implicit Types (m : Machine World App).

Lemma RegisterGlobalProvider_cases provider m :
  (Name provider ∈ (Name <$> globalProviders m) ∧
   ∃ pn, RegisterGlobalProvider provider m = (m, Panicked pn)) ∨
  ((Name provider ∉ (Name <$> globalProviders m)) ∧
   RegisterGlobalProvider provider m
   = (withRegistry (globalProviders m ++ [provider]) m, Returned ())).
Proof.
  pose proof (duplicateCheck_Some provider (globalProviders m)) as Hdup.
  unfold RegisterGlobalProvider.
  destruct (duplicateCheck provider (globalProviders m)) as [pn|].
  - left. split; [|by eauto].
    destruct (proj1 Hdup) as (q & Hq & <-); [by eauto|].
    apply list_elem_of_fmap. eauto.
  - right. split; [|done].
    intros (q & Hname & Hq)%list_elem_of_fmap.
    destruct (proj2 Hdup) as [? ?]; [by eauto|done].
Qed.

(** Registering a list of providers on a registry whose names are distinct:
    the providers are appended in order up to the first one whose name is
    taken, where the program panics; the names stay distinct, nothing but the
    registry changes, and the program gets through without a panic exactly
    when the old and the new names are all distinct;
    [GetRegisteredProviders] then returns the old entries followed by the
    new ones. *)
Theorem registerEach_distinct providers m :
  NoDup (Name <$> globalProviders m) →
  NoDup (Name <$> globalProviders (registerEach providers m).1) ∧
  (∃ done,
      done `prefix_of` providers ∧
      (registerEach providers m).1
      = withRegistry (globalProviders m ++ done) m ∧
      (((registerEach providers m).2 = Returned () ∧ done = providers) ∨
       (∃ taken rest pn,
           providers = done ++ taken :: rest ∧
           Name taken ∈ (Name <$> (globalProviders m ++ done)) ∧
           (registerEach providers m).2 = Panicked pn))) ∧
  ((registerEach providers m).2 = Returned () ↔
   NoDup (Name <$> (globalProviders m ++ providers))) ∧
  ((registerEach providers m).2 = Returned () →
   GetRegisteredProviders (registerEach providers m).1
   = GetRegisteredProviders m ++ providers).
Proof.
  revert m. induction providers as [|provider rest IH]; intros m Hnd; simpl.
  { rewrite app_nil_r. split_and!; [done| |done|].
    - exists []. split_and!; [done| |by left].
      rewrite app_nil_r. by destruct m.
    - intros _. unfold GetRegisteredProviders. by rewrite app_nil_r. }
  destruct (RegisterGlobalProvider_cases provider m)
    as [[Hin (pn & ->)]|[Hnin ->]]; simpl.
  - split_and!; [done| | |done].
    + exists []. split_and!; [apply prefix_nil| |].
      * rewrite app_nil_r. by destruct m.
      * right. exists provider, rest, pn. by rewrite app_nil_r.
    + split; [done|]. rewrite fmap_app, fmap_cons. intros Hnd'.
      apply NoDup_app in Hnd' as (_ & Hdisj & _).
      destruct (Hdisj _ Hin). left.
  - assert (NoDup (Name <$> globalProviders m ++ [provider])) as Hnd1.
    { rewrite fmap_app. apply NoDup_app. split_and!; [done| |].
      - intros name Hname Hp. apply list_elem_of_singleton in Hp as ->. done.
      - apply NoDup_singleton. }
    destruct (IH (withRegistry (globalProviders m ++ [provider]) m) Hnd1)
      as (IH1 & (done & Hpre & IH2 & IHend) & IH3 & IH4).
    simpl in *. split_and!; [done| | |].
    + exists (provider :: done). split_and!; [by apply prefix_cons| |].
      * rewrite IH2. unfold withRegistry. simpl. by rewrite <- app_assoc.
      * destruct IHend as [[Hr ->]|(taken & rest' & pn & -> & Htaken & Hr)].
        -- by left.
        -- right. exists taken, rest', pn. split_and!; [done| |done].
           by rewrite <- app_assoc in Htaken.
    + rewrite IH3, <- app_assoc. done.
    + intros Hr. rewrite (IH4 Hr). unfold GetRegisteredProviders. simpl.
      rewrite !firstn_all, <- app_assoc. done.
Qed.

End startup.

(** [TestRegisterGlobalProvider]: two providers on the empty registry. *)
Lemma registerEach_distinct_witness :
  (registerEach [Example.first; Example.second]
     (Example.start [] Example.fresh)).2 = Returned () ∧
  GetRegisteredProviders
    (registerEach [Example.first; Example.second]
       (Example.start [] Example.fresh)).1
  = [Example.first; Example.second].
Proof.
  destruct (registerEach_distinct [Example.first; Example.second]
              (Example.start [] Example.fresh)) as (_ & _ & Hiff & Hget).
  { simpl. apply NoDup_nil_2. }
  assert ((registerEach [Example.first; Example.second]
             (Example.start [] Example.fresh)).2 = Returned ()) as Hr.
  { apply Hiff. vm_compute. apply NoDup_cons. split.
    - intros [=]%list_elem_of_singleton.
    - apply NoDup_singleton. }
  split; [exact Hr|]. apply (Hget Hr).
Defined.

(** ** Sorting again *)

Section resorting.

Context {World App : Type}.
Implicit Types (p : Provider).
Implicit Types (providers : list (ServiceProvider World App)).

(** A slice that is already in ascending order of resolved priority comes
    back as it is; so does one whose providers all resolve to the same
    priority, and so does the result of a sort when it is sorted again. *)
Theorem sortProvidersByPriority_sorted_input p providers :
  (ascending (resolvePriority p) providers →
   sortProvidersByPriority p providers = Some providers) ∧
  ((∀ a b, a ∈ providers → b ∈ providers →
           resolvePriority p a = resolvePriority p b) →
   sortProvidersByPriority p providers = Some providers) ∧
  (∀ sorted,
      sortProvidersByPriority p providers = Some sorted →
      sortProvidersByPriority p sorted = Some sorted).
Proof.
  assert (∀ l : list (ServiceProvider World App),
             ascending (resolvePriority p) l →
             sortProvidersByPriority p l = Some l) as Hasc.
  { intros l Hl.
    destruct (sortProvidersByPriority_stablySorted p l) as (s & -> & Hs).
    f_equal. eapply stablySorted_unique; [done|].
    split_and!; [done|done|]. by intros c. }
  split_and!.
  - apply Hasc.
  - intros Heq. apply Hasc.
    induction providers as [|a l IH]; [constructor|].
    apply StronglySorted_cons. split.
    + apply Forall_forall. intros b Hb.
      rewrite (Heq a b); [lia|left|by right].
    + apply IH. intros x y Hx Hy. apply Heq; by right.
  - intros sorted Hs. apply Hasc.
    destruct (sortProvidersByPriority_stablySorted p providers)
      as (s & Hs' & _ & Hasc' & _).
    congruence.
Qed.

End resorting.

(** [TestSortProvidersByPriorityDefault], with providers that declare
    nothing. *)
Lemma sortProvidersByPriority_sorted_input_witness :
  sortProvidersByPriority Example.fresh
    [Example.noPriorityProvider "default1";
     Example.noPriorityProvider "default2";
     Example.noPriorityProvider "default3"]
  = Some [Example.noPriorityProvider "default1";
          Example.noPriorityProvider "default2";
          Example.noPriorityProvider "default3"].
Proof.
  apply (proj1 (proj2 (sortProvidersByPriority_sorted_input Example.fresh _))).
  intros a b Ha Hb.
  repeat (apply elem_of_cons in Ha as [->|Ha]);
    try (by apply elem_of_nil in Ha);
    repeat (apply elem_of_cons in Hb as [->|Hb]);
    try (by apply elem_of_nil in Hb); reflexivity.
Defined.

(** ** More on loading *)

Section loading_more.

Context {World App : Type}.
Implicit Types (prov : ServiceProvider World App).
Implicit Types (m : Machine World App).
Implicit Types (e : Event World App).
Implicit Types (t : list (Event World App)).
Implicit Types (L : list (ServiceProvider World App)).

Lemma LoadProviders_loadSorted app m :
  ∃ sorted,
    sortProvidersByPriority (loader m) (globalProviders m) = Some sorted ∧
    stablySorted (resolvePriority (loader m)) (globalProviders m) sorted ∧
    LoadProviders app m = loadSorted app sorted m.
Proof.
  destruct (sortProvidersByPriority_stablySorted (loader m) (globalProviders m))
    as (sorted & Hsort & Hst).
  exists sorted. split_and!; [done..|].
  unfold LoadProviders, loadSorted. by rewrite firstn_all, Hsort.
Qed.

(** The first pass treats a list like its enabled part. *)
Lemma registerPass_enabled app L acc m :
  registerPass app L acc m
  = registerPass app (enabledProviders (loader m) L) acc m.
Proof.
  revert acc m. induction L as [|prov rest IH]; intros acc m; [done|].
  unfold enabledProviders. rewrite filter_cons.
  fold (enabledProviders (loader m) rest).
  simpl. destruct (IsProviderEnabled (loader m) (Name prov)) eqn:Hen; simpl.
  2:{ apply IH. }
  rewrite Hen. simpl.
  destruct (configureProvider prov m) as [m1 [err|]] eqn:Hcfg; [done|].
  apply configureProvider_inv in Hcfg as (_ & Hl1 & _).
  destruct (invoke _ _ m1) as [m2 [err|]] eqn:Hreg; [done|].
  apply invoke_inv in Hreg as (_ & Hl2 & _).
  rewrite IH. by rewrite Hl2, Hl1.
Qed.

Lemma loadSorted_enabled app L m :
  loadSorted app L m = loadSorted app (enabledProviders (loader m) L) m.
Proof. unfold loadSorted. by rewrite registerPass_enabled. Qed.

(** The passes do not look at the registry. *)
Lemma invoke_withRegistry g c f m :
  invoke c f (withRegistry g m)
  = (withRegistry g (invoke c f m).1, (invoke c f m).2).
Proof. unfold invoke. simpl. by destruct (f (world m)). Qed.

Lemma configureProvider_withRegistry g prov m :
  configureProvider prov (withRegistry g m)
  = (withRegistry g (configureProvider prov m).1, (configureProvider prov m).2).
Proof.
  unfold configureProvider. simpl. destruct (Configure prov); [|done].
  destruct (GetProviderConfig (loader m) (Name prov)); [|done].
  apply invoke_withRegistry.
Qed.

Lemma registerPass_withRegistry g app L acc m :
  registerPass app L acc (withRegistry g m)
  = (withRegistry g (registerPass app L acc m).1, (registerPass app L acc m).2).
Proof.
  revert acc m. induction L as [|prov rest IH]; intros acc m; simpl; [done|].
  destruct (IsProviderEnabled (loader m) (Name prov)); simpl; [|apply IH].
  rewrite configureProvider_withRegistry.
  destruct (configureProvider prov m) as [m1 [err|]]; simpl; [done|].
  rewrite invoke_withRegistry.
  destruct (invoke _ _ m1) as [m2 [err|]]; simpl; [done|].
  apply IH.
Qed.

Lemma bootPass_withRegistry g app L m :
  bootPass app L (withRegistry g m)
  = (withRegistry g (bootPass app L m).1, (bootPass app L m).2).
Proof.
  revert m. induction L as [|prov rest IH]; intros m; simpl; [done|].
  rewrite invoke_withRegistry.
  destruct (invoke _ _ m) as [m1 [err|]]; simpl; [|apply IH].
  destruct (isOptional prov); [apply IH|done].
Qed.

Lemma loadSorted_withRegistry g app L m :
  loadSorted app L (withRegistry g m)
  = (withRegistry g (loadSorted app L m).1, (loadSorted app L m).2).
Proof.
  unfold loadSorted. rewrite registerPass_withRegistry.
  destruct (registerPass app L [] m) as [m1 [err|reg]]; simpl; [done|].
  rewrite bootPass_withRegistry. by destruct (bootPass app reg m1).
Qed.

(** A disabled provider is as good as one that never registered: loading
    from the registry without its disabled entries makes the same calls,
    leaves the same world and returns the same result. *)
Theorem LoadProviders_without_disabled app m :
  LoadProviders app
    (withRegistry (enabledProviders (loader m) (globalProviders m)) m)
  = (withRegistry (enabledProviders (loader m) (globalProviders m))
       (LoadProviders app m).1,
     (LoadProviders app m).2).
Proof.
  set (g := enabledProviders (loader m) (globalProviders m)).
  destruct (LoadProviders_loadSorted app m) as (sorted & _ & Hst & ->).
  destruct (LoadProviders_loadSorted app (withRegistry g m))
    as (sorted' & _ & Hst' & ->).
  simpl in Hst'.
  pose proof (stablySorted_filter _
                (λ prov, IsProviderEnabled (loader m) (Name prov) = true)
                _ _ Hst) as Hst1.
  pose proof (stablySorted_filter _
                (λ prov, IsProviderEnabled (loader m) (Name prov) = true)
                _ _ Hst') as Hst2.
  assert (enabledProviders (loader m) g = g) as Hg.
  { unfold g, enabledProviders. rewrite list_filter_filter.
    apply list_filter_iff. tauto. }
  fold (enabledProviders (loader m) g) in Hst2. rewrite Hg in Hst2.
  rewrite (loadSorted_enabled app sorted'), (loadSorted_enabled app sorted).
  simpl.
  assert (enabledProviders (loader m) sorted'
          = enabledProviders (loader m) sorted) as ->
    by exact (stablySorted_unique _ _ _ _ Hst2 Hst1).
  apply loadSorted_withRegistry.
Qed.

(** When the enabled providers resolve to distinct priorities, the order in
    which the providers registered does not matter: from any permutation of
    the registry the load makes the same calls, leaves the same world and
    returns the same result. *)
Theorem LoadProviders_registration_order app m g :
  g ≡ₚ globalProviders m →
  (∀ a b, a ∈ enabledProviders (loader m) (globalProviders m) →
          b ∈ enabledProviders (loader m) (globalProviders m) →
          resolvePriority (loader m) a = resolvePriority (loader m) b →
          a = b) →
  LoadProviders app (withRegistry g m)
  = (withRegistry g (LoadProviders app m).1, (LoadProviders app m).2).
Proof.
  intros Hperm Hinj.
  destruct (LoadProviders_loadSorted app m) as (sorted & _ & Hst & ->).
  destruct (LoadProviders_loadSorted app (withRegistry g m))
    as (sorted' & _ & Hst' & ->).
  simpl in Hst'.
  destruct (stablySorted_filter _
              (λ prov, IsProviderEnabled (loader m) (Name prov) = true)
              _ _ Hst) as (Hp1 & Ha1 & _).
  destruct (stablySorted_filter _
              (λ prov, IsProviderEnabled (loader m) (Name prov) = true)
              _ _ Hst') as (Hp2 & Ha2 & _).
  rewrite (loadSorted_enabled app sorted'), (loadSorted_enabled app sorted).
  simpl.
  assert (enabledProviders (loader m) sorted'
          = enabledProviders (loader m) sorted) as ->.
  { eapply StronglySorted_unique_strong; [|exact Ha2|exact Ha1|].
    - intros x1 x2 Hx1 Hx2 H12 H21. apply Hinj.
      + fold (enabledProviders (loader m) sorted') in Hp2.
        rewrite Hp2 in Hx1. unfold enabledProviders. by rewrite <- Hperm.
      + fold (enabledProviders (loader m) sorted) in Hp1.
        by rewrite Hp1 in Hx2.
      + simpl in H12, H21. lia.
    - unfold enabledProviders. rewrite Hp2, Hp1. by rewrite Hperm. }
  apply loadSorted_withRegistry.
Qed.

(** With no enabled provider, and so with an empty registry, the load
    returns nil and changes nothing. *)
Theorem LoadProviders_nothing_enabled app m :
  enabledProviders (loader m) (globalProviders m) = [] →
  LoadProviders app m = (m, Returned None).
Proof.
  intros Hnone.
  destruct (LoadProviders_loadSorted app m) as (sorted & _ & Hst & ->).
  destruct (stablySorted_filter _
              (λ prov, IsProviderEnabled (loader m) (Name prov) = true)
              _ _ Hst) as (Hp & _ & _).
  fold (enabledProviders (loader m) (globalProviders m)) in Hp.
  rewrite Hnone in Hp. apply Permutation_nil_r in Hp.
  rewrite loadSorted_enabled. unfold enabledProviders. rewrite Hp. done.
Qed.

End loading_more.

(** ** Results and effects of a load *)

Section effects.

Context {World App : Type}.
Implicit Types (prov : ServiceProvider World App).
Implicit Types (m : Machine World App).
Implicit Types (e : Event World App).
Implicit Types (t : list (Event World App)).
Implicit Types (L : list (ServiceProvider World App)).

Lemma RegisterTrace_error_last (p : Provider) (app : App) L t r :
  RegisterTrace p app L t r → is_Some r →
  ∃ t0 e err0,
    t = t0 ++ [e] ∧ returned e = Some err0 ∧ ¬ isBootCall (call e).
Proof.
  induction 1 as [|prov L t r H IH|prov L configure cfg err' Hc Hg|prov L err'];
    intros Hr.
  - by destruct Hr.
  - destruct (IH Hr) as (t0 & e & err0 & -> & He & Hnb).
    exists ((completed <$> configureCalls p prov)
              ++ completed (CallRegister prov app) :: t0), e, err0.
    split_and!; [|done..]. by rewrite <- app_assoc.
  - exists [], (failed (CallConfigure prov (Some cfg)) err'), err'.
    split_and!; [done..|]. by intros [].
  - exists (completed <$> configureCalls p prov),
      (failed (CallRegister prov app) err'), err'.
    split_and!; [done..|]. by intros [].
Qed.

Lemma BootTrace_error_last (app : App) L t r :
  BootTrace app L t r → is_Some r →
  ∃ t0 prov err0,
    t = t0 ++ [failed (CallBoot prov app) err0] ∧ isOptional prov = false.
Proof.
  induction 1 as [|prov L t r H IH|prov L t r err' Hopt H IH|prov L err' Hopt];
    intros Hr.
  - by destruct Hr.
  - destruct (IH Hr) as (t0 & q & err0 & -> & Hq).
    by exists (completed (CallBoot prov app) :: t0), q, err0.
  - destruct (IH Hr) as (t0 & q & err0 & -> & Hq).
    by exists (failed (CallBoot prov app) err' :: t0), q, err0.
  - by exists [], prov, err'.
Qed.

Lemma BootTrace_nil_failures (app : App) L t r :
  BootTrace app L t r → r = None →
  Forall (λ e, ∀ err, returned e = Some err →
               ∃ prov, call e = CallBoot prov app ∧ isOptional prov = true) t.
Proof.
  induction 1 as [|prov L t r H IH|prov L t r err' Hopt H IH|prov L err' Hopt];
    intros Hr; try discriminate.
  - constructor.
  - constructor; [|by auto]. by intros err.
  - constructor; [|by auto]. intros err _. by exists prov.
Qed.

(** A load never panics, and it returns nil exactly when every call that
    returned an error was a [Boot] call on an optional provider. *)
Theorem LoadProviders_nil_iff app m :
  (∃ r, (LoadProviders app m).2 = Returned r) ∧
  ((LoadProviders app m).2 = Returned None ↔
   ∀ e err, e ∈ loadLog app m → returned e = Some err →
            ∃ prov, call e = CallBoot prov app ∧ IsOptional prov = Some true).
Proof.
  destruct (LoadProviders_run app m)
    as (sorted & r & _ & _ & Hres & _ & _ & Hlog).
  rewrite Hres. split; [by eexists|]. split.
  - intros [= ->] e err Hin Herr.
    inversion Hlog as [|tR tB r' H1 H2 Heq]; subst.
    rewrite <- Heq in Hin. apply elem_of_app in Hin as [Hin|Hin].
    + destruct (RegisterTrace_done_all _ _ _ _ _ H1 eq_refl) as [Hok _].
      rewrite Forall_forall in Hok. apply Hok in Hin. congruence.
    + pose proof (BootTrace_nil_failures _ _ _ _ H2 eq_refl) as Hf.
      rewrite Forall_forall in Hf.
      destruct (Hf _ Hin _ Herr) as (prov & Hc & Hopt).
      exists prov. split; [done|]. by apply isOptional_true.
  - intros Hall. destruct r as [err|]; [exfalso|done].
    inversion Hlog as [tR err' H1|tR tB r' H1 H2 Heq]; subst.
    + destruct (RegisterTrace_error_last _ _ _ _ _ H1)
        as (t0 & e & err0 & Ht & He & Hnb); [by eexists|].
      destruct (Hall e err0) as (prov & Hc & _); [|done|].
      * rewrite Ht. apply elem_of_app. right. left.
      * rewrite Hc in Hnb. by apply Hnb.
    + destruct (BootTrace_error_last _ _ _ _ H2)
        as (t0 & q & err0 & -> & Hq); [by eexists|].
      destruct (Hall (failed (CallBoot q app) err0) err0)
        as (prov & Hc & Hopt); [|done|].
      * rewrite <- Heq. apply elem_of_app. right.
        apply elem_of_app. right. left.
      * simpl in Hc. injection Hc as <-.
        apply isOptional_true in Hopt. congruence.
Qed.

(** After [SetProviderEnabled(name, false)] a load makes no call on a
    provider of that name, whatever the store held before. *)
Theorem SetProviderEnabled_false_skips app m name e :
  e ∈ loadLog app (withLoader (SetProviderEnabled (loader m) name false) m) →
  Name (receiver (call e)) ≠ name.
Proof.
  intros Hin Hname.
  destruct (LoadProviders_run app
              (withLoader (SetProviderEnabled (loader m) name false) m))
    as (sorted & r & _ & _ & _ & _ & _ & Hlog).
  apply LoadTrace_receivers in Hlog. rewrite Forall_forall in Hlog.
  apply Hlog in Hin. apply list_elem_of_filter in Hin as [Hen _].
  simpl in Hen. rewrite Hname, IsProviderEnabled_set in Hen.
  by rewrite decide_True in Hen.
Qed.

End effects.

(** Three providers, the second one disabled, registered in two orders. *)
Lemma LoadProviders_registration_order_witness :
  LoadProviders ()
    (withRegistry [Example.first; Example.second; Example.third]
       (Example.start [Example.third; Example.first; Example.second]
          (SetProviderEnabled Example.fresh "second" false)))
  = (withRegistry [Example.first; Example.second; Example.third]
       (LoadProviders ()
          (Example.start [Example.third; Example.first; Example.second]
             (SetProviderEnabled Example.fresh "second" false))).1,
     (LoadProviders ()
        (Example.start [Example.third; Example.first; Example.second]
           (SetProviderEnabled Example.fresh "second" false))).2).
Proof.
  apply (LoadProviders_registration_order ()
           (Example.start [Example.third; Example.first; Example.second]
              (SetProviderEnabled Example.fresh "second" false))
           [Example.first; Example.second; Example.third]).
  - simpl. rewrite (Permutation_swap Example.first Example.third).
    apply perm_skip, Permutation_swap.
  - vm_compute. intros a b Ha Hb.
    repeat (apply elem_of_cons in Ha as [->|Ha]);
      try (by apply elem_of_nil in Ha);
      repeat (apply elem_of_cons in Hb as [->|Hb]);
      try (by apply elem_of_nil in Hb);
      intros Heq; try reflexivity; discriminate Heq.
Defined.

(** Every registered provider disabled. *)
Lemma LoadProviders_nothing_enabled_witness :
  LoadProviders ()
    (Example.start [Example.first]
       (SetProviderEnabled Example.fresh "first" false))
  = (Example.start [Example.first]
       (SetProviderEnabled Example.fresh "first" false), Returned None).
Proof.
  apply (LoadProviders_nothing_enabled ()
           (Example.start [Example.first]
              (SetProviderEnabled Example.fresh "first" false))).
  reflexivity.
Defined.

(** [TestLoadProvidersDisabled], through [SetProviderEnabled]. *)
Lemma SetProviderEnabled_false_skips_witness :
  Name (receiver (call (completed (CallRegister Example.first ()))))
  ≠ "second".
Proof.
  apply (SetProviderEnabled_false_skips ()
           (Example.start [Example.first; Example.second] Example.fresh)
           "second" (completed (CallRegister Example.first ()))).
  vm_compute. left.
Defined.

(** ** The sanitization helpers *)

Section sanitization_facts.

Import helpers.

Variable TrimSpace : list ascii → list ascii.
Variable scriptTagRegex onEventRegex javascriptRegex : list ascii → list ascii.

(** What is used of [strings.TrimSpace]: it returns a slice of its
    argument, and trimming twice is trimming once. *)
Hypothesis TrimSpace_slice : ∀ s, ∃ pre post, s = pre ++ TrimSpace s ++ post.
Hypothesis TrimSpace_idemp : ∀ s, TrimSpace (TrimSpace s) = TrimSpace s.

Implicit Types (input s : list ascii) (c : ascii).

Lemma TrimSpace_elem c s : c ∈ TrimSpace s → c ∈ s.
Proof.
  destruct (TrimSpace_slice s) as (pre & post & Hs). intros Hc.
  rewrite Hs. apply elem_of_app. right. apply elem_of_app. by left.
Qed.

Lemma TrimSpace_sublist s : TrimSpace s `sublist_of` s.
Proof.
  destruct (TrimSpace_slice s) as (pre & post & Hs).
  rewrite Hs at 2. apply sublist_inserts_l, sublist_inserts_r. done.
Qed.

Lemma TrimSpace_nil : TrimSpace [] = [].
Proof.
  destruct (TrimSpace_slice []) as (pre & post & Hs).
  symmetry in Hs. apply app_eq_nil in Hs as [_ Hs].
  by apply app_eq_nil in Hs as [Hs _].
Qed.

Lemma escape_no_markup c : Forall (λ c', ¬ markup c') (escape c).
Proof.
  unfold escape.
  repeat case_decide; subst; simpl; repeat constructor;
    unfold markup; rewrite !elem_of_cons, elem_of_nil;
    intuition (discriminate || congruence).
Qed.

Lemma EscapeString_no_markup s : Forall (λ c, ¬ markup c) (EscapeString s).
Proof.
  unfold EscapeString. induction s as [|c s IH]; csimpl; [constructor|].
  apply Forall_app. split; [apply escape_no_markup|done].
Qed.

(** What [CleanXSS], [CleanAll] and [Sanitize] return holds none of the
    bytes [<], [>], ['] and the double quote, whatever the three tag and
    handler expressions remove. *)
Theorem CleanXSS_CleanAll_no_markup input :
  Forall (λ c, ¬ markup c)
    (CleanXSS TrimSpace scriptTagRegex onEventRegex javascriptRegex input) ∧
  Forall (λ c, ¬ markup c)
    (CleanAll TrimSpace scriptTagRegex onEventRegex javascriptRegex input) ∧
  Forall (λ c, ¬ markup c)
    (Sanitize TrimSpace scriptTagRegex onEventRegex javascriptRegex input).
Proof.
  assert (∀ s, Forall (λ c, ¬ markup c) (TrimSpace (EscapeString s))) as Hout.
  { intros s. apply Forall_forall. intros c Hc%TrimSpace_elem.
    pose proof (EscapeString_no_markup s) as H.
    rewrite Forall_forall in H. by apply H. }
  unfold Sanitize, CleanXSS, CleanAll.
  destruct (decide (input = [])) as [->|_]; [by repeat constructor|].
  split_and!; apply Hout.
Qed.

Lemma CleanInjection_Forall input :
  Forall (λ c, ¬ controlChar c ∧ ¬ ldapChar c) (CleanInjection TrimSpace input).
Proof.
  unfold CleanInjection. destruct (decide (input = [])) as [->|_].
  { constructor. }
  apply Forall_forall. intros c Hc%TrimSpace_elem.
  unfold ldapCharsRegex, controlCharsRegex in Hc.
  apply list_elem_of_filter in Hc as [Hl Hc].
  apply list_elem_of_filter in Hc as [Hcc _]. done.
Qed.

(** What [CleanInjection] returns holds no control byte of the class and
    none of [( ) & | !], and is the input with bytes taken out. *)
Theorem CleanInjection_clean input :
  Forall (λ c, ¬ controlChar c ∧ ¬ ldapChar c) (CleanInjection TrimSpace input) ∧
  CleanInjection TrimSpace input `sublist_of` input.
Proof.
  split; [apply CleanInjection_Forall|].
  unfold CleanInjection. destruct (decide (input = [])) as [->|_]; [done|].
  etrans; [apply TrimSpace_sublist|].
  etrans; apply sublist_filter.
Qed.

(** Cleaning again what [CleanInjection] returned changes nothing. *)
Theorem CleanInjection_idempotent input :
  CleanInjection TrimSpace (CleanInjection TrimSpace input)
  = CleanInjection TrimSpace input.
Proof.
  pose proof (CleanInjection_Forall input) as Hclean.
  revert Hclean. unfold CleanInjection at 1 3 4.
  destruct (decide (input = [])) as [->|_].
  { intros _. unfold CleanInjection. by rewrite decide_True. }
  set (r := TrimSpace (ldapCharsRegex (controlCharsRegex input))).
  intros Hclean. unfold CleanInjection.
  destruct (decide (r = [])) as [Hr|_]; [done|].
  assert (ldapCharsRegex (controlCharsRegex r) = r) as ->.
  { unfold ldapCharsRegex, controlCharsRegex.
    rewrite list_filter_filter.
    induction Hclean as [|c l [Hc Hl] _ IH]; [done|].
    rewrite filter_cons_True by done. by rewrite IH. }
  apply TrimSpace_idemp.
Qed.

Lemma pathTraversalRegex_sublist s : pathTraversalRegex s `sublist_of` s.
Proof.
  induction s as [s IH] using (induction_ltof1 _ length).
  unfold ltof in IH.
  destruct s as [|a [|b [|c rest]]]; simpl.
  - done.
  - done.
  - done.
  - case_decide.
    + do 3 apply sublist_cons. apply IH. simpl. lia.
    + apply sublist_skip. apply (IH (b :: c :: rest)). simpl. lia.
Qed.

Lemma pathTraversalRegex_clean s : ¬ traverses s → pathTraversalRegex s = s.
Proof.
  induction s as [s IH] using (induction_ltof1 _ length).
  unfold ltof in IH. intros Hno.
  destruct s as [|a [|b [|c rest]]]; simpl; try done.
  assert (¬ traverses (b :: c :: rest)) as Hno'.
  { intros (pre & c' & post & Heq & Hsep). apply Hno.
    exists (a :: pre), c', post. split; [|done]. simpl. by rewrite Heq. }
  case_decide as Hm.
  - destruct Hm as (-> & -> & Hsep). destruct Hno.
    by exists [], c, rest.
  - f_equal. apply (IH (b :: c :: rest)); [simpl; lia|done].
Qed.

(** What [CleanPathTraversal] returns is the input with bytes taken out,
    and an input with no two dots before a separator is only trimmed. *)
Theorem CleanPathTraversal_only_removes input :
  CleanPathTraversal TrimSpace input `sublist_of` input ∧
  (¬ traverses input → CleanPathTraversal TrimSpace input = TrimSpace input).
Proof.
  unfold CleanPathTraversal. destruct (decide (input = [])) as [->|_].
  { split; [done|]. intros _. by rewrite TrimSpace_nil. }
  split.
  - etrans; [apply TrimSpace_sublist|apply pathTraversalRegex_sublist].
  - intros Hno. by rewrite pathTraversalRegex_clean.
Qed.

End sanitization_facts.

Section sanitization_passes.

Import helpers.

Variable TrimSpace : list ascii → list ascii.

(** One scan does not clean what it uncovers: four dots and two separators
    in front of any input leave two dots and a separator in front of the
    cleaned input, which [CleanPathTraversal] then only trims. *)
Theorem CleanPathTraversal_nested (input : list ascii) :
  CleanPathTraversal TrimSpace (String.list_ascii_of_string "....//" ++ input)
  = TrimSpace (String.list_ascii_of_string "../" ++ pathTraversalRegex input) ∧
  CleanPathTraversal TrimSpace (String.list_ascii_of_string "....\\" ++ input)
  = TrimSpace (String.list_ascii_of_string "..\" ++ pathTraversalRegex input).
Proof.
  unfold CleanPathTraversal. split; simpl.
  - destruct input as [|a [|b rest]]; reflexivity.
  - destruct input as [|a [|b rest]]; reflexivity.
Qed.

End sanitization_passes.

(** ** The sanitization theorems with an ASCII [TrimSpace] *)

Section ascii_trim.

Import helpers.

Implicit Types (s : list ascii) (c : ascii).

Lemma trimLeft_suffix s : ∃ pre, s = pre ++ trimLeft s.
Proof.
  induction s as [|c s [pre IH]]; simpl; [by exists []|].
  case_decide; [|by exists []].
  exists (c :: pre). simpl. by rewrite <- IH.
Qed.

Lemma trimLeft_head s c s' : trimLeft s = c :: s' → ¬ asciiSpace c.
Proof.
  induction s as [|a s IH]; simpl; [done|].
  case_decide; [done|]. by intros [= <- <-].
Qed.

Lemma trimLeft_fixed s c s' : s = c :: s' → ¬ asciiSpace c → trimLeft s = s.
Proof. intros -> Hc. simpl. by rewrite decide_False. Qed.

Lemma trimLeft_idemp s : trimLeft (trimLeft s) = trimLeft s.
Proof.
  destruct (trimLeft s) as [|c s'] eqn:Hs; [done|].
  eapply trimLeft_fixed; [done|]. by eapply trimLeft_head.
Qed.

Lemma trimASCII_slice s : ∃ pre post, s = pre ++ trimASCII s ++ post.
Proof.
  unfold trimASCII.
  destruct (trimLeft_suffix s) as [pre Hpre].
  destruct (trimLeft_suffix (reverse (trimLeft s))) as [post Hpost].
  exists pre, (reverse post).
  rewrite <- reverse_app, <- Hpost, reverse_involutive. done.
Qed.

Lemma trimASCII_idemp s : trimASCII (trimASCII s) = trimASCII s.
Proof.
  unfold trimASCII.
  set (u := trimLeft s).
  set (w := trimLeft (reverse u)).
  assert (trimLeft (reverse w) = reverse w) as ->.
  { destruct (reverse w) as [|c v'] eqn:Hv; [done|].
    eapply trimLeft_fixed; [done|].
    destruct (trimLeft_suffix (reverse u)) as [post Hpost]. fold w in Hpost.
    apply (f_equal reverse) in Hpost.
    rewrite reverse_involutive, reverse_app, Hv in Hpost.
    by eapply (trimLeft_head s c). }
  rewrite reverse_involutive. unfold w. by rewrite trimLeft_idemp.
Qed.

End ascii_trim.

(** Inputs of [TestCleanXSS], [TestCleanInjection] and
    [TestCleanPathTraversal]; the three tag and handler expressions remove
    nothing here. *)
Lemma CleanXSS_CleanAll_no_markup_witness :
  Forall (λ c, ¬ helpers.markup c)
    (helpers.CleanXSS helpers.trimASCII id id id
       (String.list_ascii_of_string "<b>Hello</b>")).
Proof.
  apply (CleanXSS_CleanAll_no_markup helpers.trimASCII id id id
           trimASCII_slice).
Defined.

Lemma CleanInjection_clean_witness :
  Forall (λ c, ¬ helpers.controlChar c ∧ ¬ helpers.ldapChar c)
    (helpers.CleanInjection helpers.trimASCII
       (String.list_ascii_of_string "admin)(uid=*")).
Proof.
  apply (CleanInjection_clean helpers.trimASCII trimASCII_slice).
Defined.

Lemma CleanInjection_idempotent_witness :
  helpers.CleanInjection helpers.trimASCII
    (helpers.CleanInjection helpers.trimASCII
       (String.list_ascii_of_string " user&(objectClass=*) "))
  = helpers.CleanInjection helpers.trimASCII
      (String.list_ascii_of_string " user&(objectClass=*) ").
Proof.
  apply (CleanInjection_idempotent helpers.trimASCII trimASCII_slice
           trimASCII_idemp).
Defined.

Lemma CleanPathTraversal_only_removes_witness :
  helpers.CleanPathTraversal helpers.trimASCII
    (String.list_ascii_of_string " notes ")
  = helpers.trimASCII (String.list_ascii_of_string " notes ").
Proof.
  apply (CleanPathTraversal_only_removes helpers.trimASCII trimASCII_slice).
  intros (pre & c & post & Heq & _).
  assert ("."%char ∈ String.list_ascii_of_string " notes ") as Hdot.
  { rewrite Heq. apply elem_of_app. right. left. }
  simpl in Hdot. rewrite !elem_of_cons, elem_of_nil in Hdot.
  intuition discriminate.
Defined.

(** ** The loader's state across a load *)

Section shared_frame.

Context {World App : Type}.
Variable written :
  ServiceProvider World App → gmap string value → World → gmap string value.

Implicit Types (prov : ServiceProvider World App).
Implicit Types (L : list (ServiceProvider World App)).
Implicit Types (m : Machine World App).
Implicit Types (p : Provider).









End shared_frame.


